(** * UsdImagingAdapterRegistry: a shallow embedding of
      pxr/usdImaging/usdImaging/adapterRegistry.cpp

    The registry constructor discovers adapter plugins, builds the two
    name -> adapter-type tables and the keyless adapter list; the facade
    answers lookups and manufactures adapter instances.  The plugin
    registry, the schema registry and the type system are external; they
    are gathered in the record [Env] and every definition is a function of
    it. *)

From stdpp Require Import gmap strings list fin_maps fin_sets.

Open Scope string_scope.
Open Scope list_scope.

(** ** Data model *)

(** [TfToken]: an interned string, compared by value. *)
Abbreviation TfToken := string (only parsing).

(** [TfType]: a handle on a registered type, identified by its unique type
    name.  The default-constructed handle is the unknown type, which
    converts to [false]. *)
Inductive TfType :=
| TfUnknown
| TfNamed (typeName : string).

#[global] Instance TfType_eq_dec : EqDecision TfType.
Proof. solve_decision. Defined.

Definition IsUnknown (t : TfType) : bool :=
  match t with TfUnknown => true | TfNamed _ => false end.

(** [JsValue]: the dynamically typed values of a plugin's metadata. *)
Inductive JsValue :=
| JsNull
| JsBool (b : bool)
| JsInt (i : Z)
| JsString (s : string).

(** [JsObject] is a [std::map<std::string, JsValue>]. *)
Abbreviation JsObject := (gmap string JsValue) (only parsing).

(** [_TypeMap] is a hash map from [TfToken] to [TfType]. *)
Abbreviation TypeMap := (gmap string TfType) (only parsing).

Record PlugPlugin := {
  GetMetadataForType : TfType → JsObject;
  Load : bool
}.

Record SchemaInfo := {
  identifier : TfToken;
  type : TfType
}.

(** A factory of adapters of family [T]; [New] yields an instance or a
    null pointer. *)
Record Factory (T : Type) := { New : option T }.
Arguments New {T} _.

(** Instances of the two adapter families.  [UsdImagingInstanceAdapter] is
    the built-in implementation that [ConstructAdapter] allocates itself. *)
Inductive UsdImagingPrimAdapter :=
| UsdImagingInstanceAdapter
| ManufacturedPrimAdapter (impl : string).

Inductive UsdImagingAPISchemaAdapter :=
| ManufacturedAPISchemaAdapter (impl : string).

(** The collaborators of the registry. *)
Record Env := {
  (** [TfGetenvBool("USDIMAGING_ENABLE_PLUGINS", true)], read once. *)
  AreExternalPluginsEnabled : bool;
  (** [TfType::Find<UsdImagingPrimAdapter>()] and
      [TfType::Find<UsdImagingAPISchemaAdapter>()]. *)
  _adapterBaseType : TfType;
  _apiSchemaAdapterBaseType : TfType;
  (** [UsdImagingAdapterKeyTokens->instanceAdapterKey]. *)
  instanceAdapterKey : TfToken;
  (** [PlugRegistry]: the set of derived types in its iteration order. *)
  GetAllDerivedTypes : TfType → list TfType;
  GetDirectlyDerivedTypes : TfType → list TfType;
  GetPluginForType : TfType → option PlugPlugin;
  (** [UsdSchemaRegistry]. *)
  FindSchemaInfosInFamily : TfToken → list SchemaInfo;
  GetSchemaTypeName : TfType → TfToken;
  GetTypeFromSchemaTypeName : TfToken → TfType;
  (** [TfType::GetFactory<factoryT>()] for the two factory base classes. *)
  GetPrimAdapterFactory : TfType → option (Factory UsdImagingPrimAdapter);
  GetAPISchemaAdapterFactory :
    TfType → option (Factory UsdImagingAPISchemaAdapter)
}.

(** ** Diagnostics

    Every message the file can issue, with the values it prints.  Adapter
    types are printed through [GetTypeName]; the diagnostics carry the type
    handle itself. *)
Inductive Diagnostic :=
| PluginNotLoaded (t : TfType)
| IsInternalCorrupted (t : TfType)
| PluginDisabled (t : TfType)
| NameNotPresent (field : string) (t : TfType)
| NameCorrupted (field : string) (t : TfType)
| DiscoveredPrim (t : TfType) (primTypeName : TfToken)
| DiscoveredAPISchema (t : TfType)
| AdapterConflict (primTypeName : TfToken) (last previous : TfType)
| IncludeDerivedCorrupted (t : TfType)
| IncludeFamilyCorrupted (t : TfType)
| FamilyMapping (familyName typeName : TfToken)
| DerivedMapping (primTypeName typeName : TfToken)
| UnknownPrimType (adapterKey : TfToken)
| PluginLoadFailed (t : TfType)
| CannotManufacture (t : TfType) (adapterKey : TfToken)
| FailedToInstantiate (t : TfType) (adapterKey : TfToken)
| Loaded (adapterKey : TfToken) (t : TfType).

Inductive Severity := Debug | RuntimeError | CodingError.

#[global] Instance Severity_eq_dec : EqDecision Severity.
Proof. solve_decision. Defined.

#[global] Instance Diagnostic_eq_dec : EqDecision Diagnostic.
Proof. solve_decision. Defined.

(** [TF_DEBUG(...).Msg], [TF_RUNTIME_ERROR] or [TF_CODING_ERROR]; none of
    them aborts. *)
Definition severity (d : Diagnostic) : Severity :=
  match d with
  | PluginNotLoaded _ | PluginDisabled _ | DiscoveredPrim _ _
  | DiscoveredAPISchema _ | FamilyMapping _ _ | DerivedMapping _ _
  | UnknownPrimType _ | Loaded _ _ => Debug
  | IsInternalCorrupted _ | NameNotPresent _ _ | NameCorrupted _ _
  | IncludeDerivedCorrupted _ | IncludeFamilyCorrupted _ => RuntimeError
  | AdapterConflict _ _ _ | PluginLoadFailed _ | CannotManufacture _ _
  | FailedToInstantiate _ _ => CodingError
  end.

(** ** The registry under construction

    The five data members of the registry, the two local vectors of the
    constructor and the diagnostics issued so far, oldest first. *)
Record State := mkState {
  _typeMap : TypeMap;
  _adapterKeys : list TfToken;
  _apiSchemaTypeMap : TypeMap;
  _apiSchemaAdapterKeys : list TfToken;
  _keylessApiSchemaAdapterTypes : list TfType;
  includeDerivedPrimTypes : list TfToken;
  includeSchemaFamilies : list (TfToken * bool);
  diagnostics : list Diagnostic
}.

Definition initial : State :=
  mkState ∅ [] ∅ [] [] [] [] [].

Definition emit (d : Diagnostic) (st : State) : State :=
  mkState (_typeMap st) (_adapterKeys st) (_apiSchemaTypeMap st)
    (_apiSchemaAdapterKeys st) (_keylessApiSchemaAdapterTypes st)
    (includeDerivedPrimTypes st) (includeSchemaFamilies st)
    (diagnostics st ++ [d]).

Definition with_typeMap (tm : TypeMap) (st : State) : State :=
  mkState tm (_adapterKeys st) (_apiSchemaTypeMap st)
    (_apiSchemaAdapterKeys st) (_keylessApiSchemaAdapterTypes st)
    (includeDerivedPrimTypes st) (includeSchemaFamilies st) (diagnostics st).

Definition with_apiSchemaTypeMap (tm : TypeMap) (st : State) : State :=
  mkState (_typeMap st) (_adapterKeys st) tm
    (_apiSchemaAdapterKeys st) (_keylessApiSchemaAdapterTypes st)
    (includeDerivedPrimTypes st) (includeSchemaFamilies st) (diagnostics st).

Definition push_keyless (t : TfType) (st : State) : State :=
  mkState (_typeMap st) (_adapterKeys st) (_apiSchemaTypeMap st)
    (_apiSchemaAdapterKeys st) (_keylessApiSchemaAdapterTypes st ++ [t])
    (includeDerivedPrimTypes st) (includeSchemaFamilies st) (diagnostics st).

Definition with_includeDerived (l : list TfToken) (st : State) : State :=
  mkState (_typeMap st) (_adapterKeys st) (_apiSchemaTypeMap st)
    (_apiSchemaAdapterKeys st) (_keylessApiSchemaAdapterTypes st)
    l (includeSchemaFamilies st) (diagnostics st).

Definition push_includeDerived (n : TfToken) (st : State) : State :=
  with_includeDerived (includeDerivedPrimTypes st ++ [n]) st.

Definition push_includeFamily (p : TfToken * bool) (st : State) : State :=
  mkState (_typeMap st) (_adapterKeys st) (_apiSchemaTypeMap st)
    (_apiSchemaAdapterKeys st) (_keylessApiSchemaAdapterTypes st)
    (includeDerivedPrimTypes st) (includeSchemaFamilies st ++ [p])
    (diagnostics st).

Definition with_diagnostics (l : list Diagnostic) (st : State) : State :=
  mkState (_typeMap st) (_adapterKeys st) (_apiSchemaTypeMap st)
    (_apiSchemaAdapterKeys st) (_keylessApiSchemaAdapterTypes st)
    (includeDerivedPrimTypes st) (includeSchemaFamilies st) l.

Definition with_adapterKeys (l : list TfToken) (st : State) : State :=
  mkState (_typeMap st) l (_apiSchemaTypeMap st)
    (_apiSchemaAdapterKeys st) (_keylessApiSchemaAdapterTypes st)
    (includeDerivedPrimTypes st) (includeSchemaFamilies st) (diagnostics st).

Definition with_apiSchemaAdapterKeys (l : list TfToken) (st : State) : State :=
  mkState (_typeMap st) (_adapterKeys st) (_apiSchemaTypeMap st)
    l (_keylessApiSchemaAdapterTypes st)
    (includeDerivedPrimTypes st) (includeSchemaFamilies st) (diagnostics st).

(** ** Pass 1: discovery *)

(** Lines 79-94 and 273-288.  [None]: the [isInternal] entry does not hold
    a bool and the candidate is abandoned with a runtime error. *)
Definition isEnabled (E : Env) (metadata : JsObject) : option bool :=
  if AreExternalPluginsEnabled E then Some true
  else match metadata !! "isInternal" with
       | None => Some false
       | Some (JsBool b) => Some b
       | Some _ => None
       end.

(** Lines 118-167: the candidate [t] has passed the checks and declares
    [primTypeName]. *)
Definition primRecord (t : TfType) (metadata : JsObject)
    (primTypeName : TfToken) (st : State) : State :=
  let st := emit (DiscoveredPrim t primTypeName) st in
  let st :=
    match _typeMap st !! primTypeName with
    | Some previous => emit (AdapterConflict primTypeName t previous) st
    | None => st
    end in
  let st := with_typeMap (<[primTypeName := t]> (_typeMap st)) st in
  let includeFamily (includeDerived : bool) (st : State) : State :=
    match metadata !! "includeSchemaFamily" with
    | None => st
    | Some (JsBool true) =>
        push_includeFamily (primTypeName, includeDerived) st
    | Some (JsBool false) => st
    | Some _ => emit (IncludeFamilyCorrupted t) st
    end in
  match metadata !! "includeDerivedPrimTypes" with
  | None => includeFamily false st
  | Some (JsBool true) =>
      includeFamily true (push_includeDerived primTypeName st)
  | Some (JsBool false) => includeFamily false st
  | Some _ => emit (IncludeDerivedCorrupted t) st
  end.

(** Lines 66-167: the body of the loop over the prim adapter types. *)
Definition primStep (E : Env) (st : State) (t : TfType) : State :=
  match GetPluginForType E t with
  | None => emit (PluginNotLoaded t) st
  | Some plugin =>
      let metadata := GetMetadataForType plugin t in
      match isEnabled E metadata with
      | None => emit (IsInternalCorrupted t) st
      | Some false => emit (PluginDisabled t) st
      | Some true =>
          match metadata !! "primTypeName" with
          | None => emit (NameNotPresent "primTypeName" t) st
          | Some (JsString s) => primRecord t metadata s st
          | Some _ => emit (NameCorrupted "primTypeName" t) st
          end
      end
  end.

(** Lines 311-340. *)
Definition apiRecord (t : TfType) (metadata : JsObject)
    (apiSchemaName : TfToken) (st : State) : State :=
  let st := emit (DiscoveredAPISchema t) st in
  if decide (apiSchemaName = "") then push_keyless t st
  else
    let st :=
      with_apiSchemaTypeMap (<[apiSchemaName := t]> (_apiSchemaTypeMap st))
        st in
    match metadata !! "includeDerivedPrimTypes" with
    | None => st
    | Some (JsBool true) => push_includeDerived apiSchemaName st
    | Some (JsBool false) => st
    | Some _ => emit (IncludeDerivedCorrupted t) st
    end.

(** Lines 260-340: the body of the loop over the API schema adapter
    types. *)
Definition apiStep (E : Env) (st : State) (t : TfType) : State :=
  match GetPluginForType E t with
  | None => emit (PluginNotLoaded t) st
  | Some plugin =>
      let metadata := GetMetadataForType plugin t in
      match isEnabled E metadata with
      | None => emit (IsInternalCorrupted t) st
      | Some false => emit (PluginDisabled t) st
      | Some true =>
          match metadata !! "apiSchemaName" with
          | None => emit (NameNotPresent "apiSchemaName" t) st
          | Some (JsString s) => apiRecord t metadata s st
          | Some _ => emit (NameCorrupted "apiSchemaName" t) st
          end
      end
  end.

(** ** Pass 2: schema families *)

(** [tm[key]] on the hash map: a missing key is first inserted with a
    default-constructed [TfType]. *)
Definition subscript (tm : TypeMap) (key : TfToken) : TfType * TypeMap :=
  match tm !! key with
  | Some v => (v, tm)
  | None => (TfUnknown, <[key := TfUnknown]> tm)
  end.

(** [tm.emplace(key, v)]: the map, and whether the insertion took place. *)
Definition emplace (key : TfToken) (v : TfType) (tm : TypeMap)
    : TypeMap * bool :=
  match tm !! key with
  | Some _ => (tm, false)
  | None => (<[key := v]> tm, true)
  end.

(** Lines 180-193: one schema of the family. *)
Definition familyVariant (E : Env) (familyName : TfToken)
    (includeDerived : bool) (adapterType : TfType)
    (st : State) (schemaInfo : SchemaInfo) : State :=
  match emplace (identifier schemaInfo) adapterType (_typeMap st) with
  | (_, false) => st
  | (tm, true) =>
      let st := with_typeMap tm st in
      let typeName := GetSchemaTypeName E (type schemaInfo) in
      let st := emit (FamilyMapping familyName typeName) st in
      if includeDerived then push_includeDerived typeName st else st
  end.

(** Lines 171-194: one recorded pair. *)
Definition familyStep (E : Env) (st : State) (pair : TfToken * bool)
    : State :=
  let familyName := pair.1 in
  let includeDerived := pair.2 in
  let '(adapterType, tm) := subscript (_typeMap st) familyName in
  let st := with_typeMap tm st in
  foldl (familyVariant E familyName includeDerived adapterType) st
    (FindSchemaInfosInFamily E familyName).

(** ** Pass 3: derived types *)

(** Lines 215-241, the [while] loop.  The stack is a list whose head is
    the back of the vector, so pushing the vector [v] element by element
    prepends [reverse v].  The loop is not structurally recursive; [fuel]
    bounds the number of iterations and [None] means it was exhausted
    with the stack still non-empty. *)
Fixpoint propagate (E : Env) (fuel : nat) (primTypeName : TfToken)
    (adapterType : TfType) (derivedTypesStack : list TfType)
    (tm : TypeMap) (log : list Diagnostic)
    : option (TypeMap * list Diagnostic) :=
  match derivedTypesStack with
  | [] => Some (tm, log)
  | derivedType :: derivedTypesStack =>
      match fuel with
      | 0 => None
      | S fuel =>
          let typeName := GetSchemaTypeName E derivedType in
          if decide (typeName = "") then
            propagate E fuel primTypeName adapterType derivedTypesStack tm log
          else
            match emplace typeName adapterType tm with
            | (tm, true) =>
                propagate E fuel primTypeName adapterType
                  (reverse (GetDirectlyDerivedTypes E derivedType)
                     ++ derivedTypesStack)
                  tm (log ++ [DerivedMapping primTypeName typeName])
            | (_, false) =>
                propagate E fuel primTypeName adapterType derivedTypesStack
                  tm log
            end
      end
  end.

(** Lines 201-241: one entry of [includeDerivedPrimTypes]. *)
Definition processRoot (E : Env) (fuel : nat) (primTypeName : TfToken)
    (tm : TypeMap) (log : list Diagnostic)
    : option (TypeMap * list Diagnostic) :=
  let primType := GetTypeFromSchemaTypeName E primTypeName in
  if IsUnknown primType then Some (tm, log)
  else
    let '(adapterType, tm) := subscript tm primTypeName in
    propagate E fuel primTypeName adapterType
      (reverse (GetDirectlyDerivedTypes E primType)) tm log.

(** Lines 199-243: the lambda, applied to the map [tm] points to. *)
Fixpoint _ProcessDerivedTypes (E : Env) (fuel : nat)
    (includeDerivedPrimTypes : list TfToken)
    (tm : TypeMap) (log : list Diagnostic)
    : option (TypeMap * list Diagnostic) :=
  match includeDerivedPrimTypes with
  | [] => Some (tm, log)
  | primTypeName :: rest =>
      match processRoot E fuel primTypeName tm log with
      | None => None
      | Some (tm, log) => _ProcessDerivedTypes E fuel rest tm log
      end
  end.

(** ** The constructor *)

(** The keys of a map in its iteration order. *)
Definition keys (tm : TypeMap) : list TfToken := (map_to_list tm).*1.

(** Lines 49-351.  Line 346 reserves buckets and has no visible effect. *)
Definition UsdImagingAdapterRegistry (E : Env) (fuel : nat) : option State :=
  let st := foldl (primStep E) initial
              (GetAllDerivedTypes E (_adapterBaseType E)) in
  let st := foldl (familyStep E) st (includeSchemaFamilies st) in
  match _ProcessDerivedTypes E fuel (includeDerivedPrimTypes st)
          (_typeMap st) (diagnostics st) with
  | None => None
  | Some (tm, log) =>
      let st := with_diagnostics log (with_typeMap tm st) in
      let st := with_adapterKeys (keys (_typeMap st)) st in
      let st := with_includeDerived [] st in
      let st := foldl (apiStep E) st
                  (GetAllDerivedTypes E (_apiSchemaAdapterBaseType E)) in
      match _ProcessDerivedTypes E fuel (includeDerivedPrimTypes st)
              (_apiSchemaTypeMap st) (diagnostics st) with
      | None => None
      | Some (tm, log) =>
          let st := with_diagnostics log (with_apiSchemaTypeMap tm st) in
          Some (with_apiSchemaAdapterKeys (keys (_apiSchemaTypeMap st)) st)
      end
  end.

(** ** The facade *)

Definition HasAdapter (E : Env) (st : State) (adapterKey : TfToken) : bool :=
  if decide (adapterKey = instanceAdapterKey E) then true
  else bool_decide (is_Some (_typeMap st !! adapterKey)).

Definition GetAdapterKeys (st : State) : list TfToken := _adapterKeys st.

Definition HasAPISchemaAdapter (st : State) (adapterKey : TfToken) : bool :=
  bool_decide (is_Some (_apiSchemaTypeMap st !! adapterKey)).

Definition GetAPISchemaAdapterKeys (st : State) : list TfToken :=
  _apiSchemaAdapterKeys st.

(** The template [_ConstructAdapter<T, factoryT>]: the result, a null
    pointer being [None], and the diagnostics of the call. *)
Section ConstructAdapter.
Context {T : Type}.
Variable GetFactory : TfType → option (Factory T).

(** Lines 393-436, the overload taking the adapter type. *)
Definition _ConstructAdapter_byType (E : Env) (adapterKey : TfToken)
    (adapterType : TfType) : option T * list Diagnostic :=
  match GetPluginForType E adapterType with
  | None => (None, [PluginLoadFailed adapterType])
  | Some plugin =>
      if negb (Load plugin) then (None, [PluginLoadFailed adapterType])
      else
        match GetFactory adapterType with
        | None => (None, [CannotManufacture adapterType adapterKey])
        | Some factory =>
            match New factory with
            | None => (None, [FailedToInstantiate adapterType adapterKey])
            | Some instance => (Some instance, [Loaded adapterKey adapterType])
            end
        end
  end.

(** Lines 370-391, the overload taking the map. *)
Definition _ConstructAdapter (E : Env) (adapterKey : TfToken)
    (tm : TypeMap) : option T * list Diagnostic :=
  match tm !! adapterKey with
  | None => (None, [UnknownPrimType adapterKey])
  | Some adapterType => _ConstructAdapter_byType E adapterKey adapterType
  end.
End ConstructAdapter.

(** Lines 439-451. *)
Definition ConstructAdapter (E : Env) (st : State) (adapterKey : TfToken)
    : option UsdImagingPrimAdapter * list Diagnostic :=
  if decide (adapterKey = instanceAdapterKey E) then
    (Some UsdImagingInstanceAdapter, [])
  else _ConstructAdapter (GetPrimAdapterFactory E) E adapterKey (_typeMap st).

(** Lines 459-465. *)
Definition ConstructAPISchemaAdapter (E : Env) (st : State)
    (adapterKey : TfToken)
    : option UsdImagingAPISchemaAdapter * list Diagnostic :=
  _ConstructAdapter (GetAPISchemaAdapterFactory E) E adapterKey
    (_apiSchemaTypeMap st).

(** Lines 480-487: the body of the loop over the keyless types; the key
    passed down is the empty token. *)
Definition keylessStep (E : Env)
    (acc : list UsdImagingAPISchemaAdapter * list Diagnostic)
    (adapterType : TfType)
    : list UsdImagingAPISchemaAdapter * list Diagnostic :=
  let '(instance, d) :=
    _ConstructAdapter_byType (GetAPISchemaAdapterFactory E) E "" adapterType in
  (match instance with
   | Some instance => acc.1 ++ [instance]
   | None => acc.1
   end, acc.2 ++ d).

(** Lines 474-490. *)
Definition ConstructKeylessAPISchemaAdapters (E : Env) (st : State)
    : list UsdImagingAPISchemaAdapter * list Diagnostic :=
  foldl (keylessStep E) ([], []) (_keylessApiSchemaAdapterTypes st).

(** ** Vocabulary of the properties *)

(** The two adapter families and, for each, its discovery step, its map
    and the metadata field that names the adapted type. *)
Inductive AdapterFamily := PrimFamily | APISchemaFamily.

Definition nameField (f : AdapterFamily) : string :=
  match f with
  | PrimFamily => "primTypeName"
  | APISchemaFamily => "apiSchemaName"
  end.

Definition familyMap (f : AdapterFamily) (st : State) : TypeMap :=
  match f with
  | PrimFamily => _typeMap st
  | APISchemaFamily => _apiSchemaTypeMap st
  end.

Definition discoverStep (f : AdapterFamily) (E : Env) (st : State)
    (t : TfType) : State :=
  match f with
  | PrimFamily => primStep E st t
  | APISchemaFamily => apiStep E st t
  end.

(** The candidate [t] passes the checks of the loop: it has a plugin, is
    enabled, and its name field holds the string [s]. *)
Definition discovered (f : AdapterFamily) (E : Env) (t : TfType)
    (metadata : gmap string JsValue) (s : TfToken) : Prop :=
  (∃ plugin, GetPluginForType E t = Some plugin
             ∧ GetMetadataForType plugin t = metadata)
  ∧ isEnabled E metadata = Some true
  ∧ metadata !! nameField f = Some (JsString s).

(** The candidate [t] reaches the point where its name is written: it is
    discovered and its name, for an API schema adapter, is not empty. *)
Definition declares (f : AdapterFamily) (E : Env) (t : TfType)
    (metadata : gmap string JsValue) (s : TfToken) : Prop :=
  discovered f E t metadata s ∧ (f = APISchemaFamily → s ≠ "").

(** The diagnostics [st'] has issued since [st]. *)
Definition issued (st st' : State) (new : list Diagnostic) : Prop :=
  diagnostics st' = diagnostics st ++ new.

Definition isBool (v : JsValue) : bool :=
  match v with JsBool _ => true | _ => false end.

(** The boolean an opt-in entry stands for when it is well formed. *)
Definition optIn (metadata : gmap string JsValue) (key : string)
    : option bool :=
  match metadata !! key with
  | None => Some false
  | Some (JsBool b) => Some b
  | Some _ => None
  end.

(** Types the walk started from [stack] can reach through subtypes that
    had a name and no mapping in [tm] when the walk began. *)
Inductive Unshadowed (E : Env) (tm : gmap string TfType)
    (stack : list TfType) : TfType → Prop :=
| Unshadowed_stack d :
    d ∈ stack → Unshadowed E tm stack d
| Unshadowed_child p d :
    Unshadowed E tm stack p →
    GetSchemaTypeName E p ≠ "" →
    tm !! GetSchemaTypeName E p = None →
    d ∈ GetDirectlyDerivedTypes E p →
    Unshadowed E tm stack d.

(** The type graph is finite: the names of all derived types lie in [N]
    and no type has more than [D] direct subtypes. *)
Definition FiniteGraph (E : Env) (N : gset string) (D : nat) : Prop :=
  (∀ t d, d ∈ GetDirectlyDerivedTypes E t → GetSchemaTypeName E d ∈ N)
  ∧ (∀ t, (length (GetDirectlyDerivedTypes E t) ≤ D)%nat).

(** The discovery step for [t] overwrites the entry of [s] and reports
    the conflict between [t] and the [previous] adapter. *)
Definition reportsConflict (f : AdapterFamily) (E : Env) (st : State)
    (t previous : TfType) (s : TfToken) : Prop :=
  familyMap f (discoverStep f E st t) !! s = Some t
  ∧ ∃ new, issued st (discoverStep f E st t) new
           ∧ AdapterConflict s t previous ∈ new.

(** The two errors of a candidate whose name field is missing or holds
    no string. *)
Definition isNameError (d : Diagnostic) : bool :=
  match d with
  | NameNotPresent _ _ | NameCorrupted _ _ => true
  | _ => false
  end.

(** Activation of the backing plugin of an adapter type: the plugin is
    found and loads. *)
Definition activated (E : Env) (adapterType : TfType) : bool :=
  match GetPluginForType E adapterType with
  | Some plugin => Load plugin
  | None => false
  end.

(** Every schema of the family of [familyName] is a key of the API
    schema map. *)
Definition familyMappedAPI (E : Env) (st : State) (familyName : TfToken)
    : Prop :=
  ∀ schemaInfo, schemaInfo ∈ FindSchemaInfosInFamily E familyName →
    is_Some (_apiSchemaTypeMap st !! identifier schemaInfo).

(** The stages of the constructor. *)
Definition afterPrimDiscovery (E : Env) : State :=
  foldl (primStep E) initial (GetAllDerivedTypes E (_adapterBaseType E)).

Definition afterFamilies (E : Env) : State :=
  foldl (familyStep E) (afterPrimDiscovery E)
    (includeSchemaFamilies (afterPrimDiscovery E)).

Definition beforeAPIDiscovery (E : Env) (tm : gmap string TfType)
    (log : list Diagnostic) : State :=
  with_includeDerived []
    (with_adapterKeys (keys tm)
       (with_diagnostics log (with_typeMap tm (afterFamilies E)))).

Definition afterAPIDiscovery (E : Env) (tm : gmap string TfType)
    (log : list Diagnostic) : State :=
  foldl (apiStep E) (beforeAPIDiscovery E tm log)
    (GetAllDerivedTypes E (_apiSchemaAdapterBaseType E)).

(** The name a candidate passes the checks of its loop with: [None] when
    the candidate is skipped. *)
Definition candidateName (f : AdapterFamily) (E : Env) (t : TfType)
    : option TfToken :=
  match GetPluginForType E t with
  | None => None
  | Some plugin =>
      match isEnabled E (GetMetadataForType plugin t) with
      | Some true =>
          match GetMetadataForType plugin t !! nameField f with
          | Some (JsString s) => Some s
          | _ => None
          end
      | _ => None
      end
  end.

(** The key a candidate writes into the map of its family: its name,
    unless it is skipped or is a keyless API schema adapter. *)
Definition writtenName (f : AdapterFamily) (E : Env) (t : TfType)
    : option TfToken :=
  match candidateName f E t with
  | Some s =>
      match f with
      | PrimFamily => Some s
      | APISchemaFamily => if decide (s = "") then None else Some s
      end
  | None => None
  end.

(** The candidates of a family in the order the constructor visits
    them. *)
Definition candidates (f : AdapterFamily) (E : Env) : list TfType :=
  match f with
  | PrimFamily => GetAllDerivedTypes E (_adapterBaseType E)
  | APISchemaFamily => GetAllDerivedTypes E (_apiSchemaAdapterBaseType E)
  end.

(** The metadata of [t] marks it as internal. *)
Definition markedInternal (E : Env) (t : TfType) : Prop :=
  ∃ plugin, GetPluginForType E t = Some plugin
            ∧ GetMetadataForType plugin t !! "isInternal" = Some (JsBool true).

(** ** Example environments *)
Module Examples.

Fixpoint assoc {K V : Type} `{EqDecision K} (k : K) (l : list (K * V))
    : option V :=
  match l with
  | [] => None
  | (k', v) :: l => if decide (k = k') then Some v else assoc k l
  end.

Definition primBase : TfType := TfNamed "UsdImagingPrimAdapter".
Definition apiBase : TfType := TfNamed "UsdImagingAPISchemaAdapter".

Definition factoryOf {T : Type} (make : string → T) (broken : list TfType)
    (t : TfType) : option (Factory T) :=
  match t with
  | TfUnknown => None
  | TfNamed n =>
      Some {| New := if decide (t ∈ broken) then None else Some (make n) |}
  end.

(** An environment given by tables: the adapters of each family with
    their metadata, the schema types with their names and direct
    subtypes, the schema families, and the adapter types whose factory
    yields nothing. *)
Definition world (enabled : bool)
    (prims apis : list (TfType * gmap string JsValue))
    (schemas : list (TfType * (string * list TfType)))
    (families : list (string * list SchemaInfo))
    (broken : list TfType) : Env := {|
  AreExternalPluginsEnabled := enabled;
  _adapterBaseType := primBase;
  _apiSchemaAdapterBaseType := apiBase;
  instanceAdapterKey := "__instanceAdapter";
  GetAllDerivedTypes := λ b,
    if decide (b = primBase) then prims.*1
    else if decide (b = apiBase) then apis.*1 else [];
  GetDirectlyDerivedTypes := λ t, default [] (snd <$> assoc t schemas);
  GetPluginForType := λ t,
    (λ md, {| GetMetadataForType := λ _, md; Load := true |})
      <$> assoc t (prims ++ apis);
  FindSchemaInfosInFamily := λ f, default [] (assoc f families);
  GetSchemaTypeName := λ t, default "" (fst <$> assoc t schemas);
  GetTypeFromSchemaTypeName := λ n,
    default TfUnknown (assoc n ((λ s, (s.2.1, s.1)) <$> schemas));
  GetPrimAdapterFactory := factoryOf ManufacturedPrimAdapter broken;
  GetAPISchemaAdapterFactory := factoryOf ManufacturedAPISchemaAdapter broken
|}.

Definition meta (l : list (string * JsValue)) : gmap string JsValue :=
  list_to_map l.

(** One adapter for [Cylinder_1] that opts in to derived types and to
    its schema family; [Cylinder_2] has the subtype [CustomCylinder]. *)
Definition cylinders : Env :=
  world true
    [(TfNamed "CylinderAdapter",
      meta [("primTypeName", JsString "Cylinder_1");
            ("includeDerivedPrimTypes", JsBool true);
            ("includeSchemaFamily", JsBool true)])]
    []
    [(TfNamed "UsdGeomCylinder_1", ("Cylinder_1", []));
     (TfNamed "UsdGeomCylinder_2", ("Cylinder_2", [TfNamed "CustomCylinder"]));
     (TfNamed "CustomCylinder", ("CustomCylinder", []))]
    [("Cylinder_1",
      [ {| identifier := "Cylinder_1"; type := TfNamed "UsdGeomCylinder_1" |};
        {| identifier := "Cylinder_2"; type := TfNamed "UsdGeomCylinder_2" |} ])]
    [].

(** Two adapters of each family that declare the same name. *)
Definition spheres : Env :=
  world true
    [(TfNamed "SphereAdapterA", meta [("primTypeName", JsString "Sphere")]);
     (TfNamed "SphereAdapterB", meta [("primTypeName", JsString "Sphere")])]
    [(TfNamed "CollectionAdapterA",
      meta [("apiSchemaName", JsString "CollectionAPI")]);
     (TfNamed "CollectionAdapterB",
      meta [("apiSchemaName", JsString "CollectionAPI")])]
    [] [] [].

(** An API schema adapter that declares [includeSchemaFamily]. *)
Definition lightFamily : Env :=
  world true []
    [(TfNamed "LightAPIAdapter",
      meta [("apiSchemaName", JsString "LightAPI_1");
            ("includeDerivedPrimTypes", JsBool true);
            ("includeSchemaFamily", JsBool true)])]
    [(TfNamed "UsdLuxLightAPI_1", ("LightAPI_1", []));
     (TfNamed "UsdLuxLightAPI_2", ("LightAPI_2", []))]
    [("LightAPI_1",
      [ {| identifier := "LightAPI_1"; type := TfNamed "UsdLuxLightAPI_1" |};
        {| identifier := "LightAPI_2"; type := TfNamed "UsdLuxLightAPI_2" |} ])]
    [].

(** A family member with an adapter of its own, discovered before the
    adapter that includes the family. *)
Definition capsules : Env :=
  world true
    [(TfNamed "Capsule1Adapter", meta [("primTypeName", JsString "Capsule_1")]);
     (TfNamed "CapsuleAdapter",
      meta [("primTypeName", JsString "Capsule");
            ("includeSchemaFamily", JsBool true)])]
    []
    [(TfNamed "UsdGeomCapsule", ("Capsule", []));
     (TfNamed "UsdGeomCapsule_1", ("Capsule_1", []))]
    [("Capsule",
      [ {| identifier := "Capsule"; type := TfNamed "UsdGeomCapsule" |};
        {| identifier := "Capsule_1"; type := TfNamed "UsdGeomCapsule_1" |} ])]
    [].

(** An adapter of each family whose [includeDerivedPrimTypes] entry
    holds a string. *)
Definition corrupted : Env :=
  world true
    [(TfNamed "MeshAdapter",
      meta [("primTypeName", JsString "Mesh");
            ("includeDerivedPrimTypes", JsString "yes");
            ("includeSchemaFamily", JsBool true)])]
    [(TfNamed "MaterialBindingAdapter",
      meta [("apiSchemaName", JsString "MaterialBindingAPI");
            ("includeDerivedPrimTypes", JsInt 1)])]
    [(TfNamed "UsdGeomMesh", ("Mesh", [TfNamed "MyMesh"]));
     (TfNamed "MyMesh", ("MyMesh", []))]
    [] [].

(** Adapters that declare the empty name: one prim adapter and two API
    schema adapters, the second with a factory that yields nothing,
    beside a keyed API schema adapter. *)
Definition nameless : Env :=
  world true
    [(TfNamed "DrawModeAdapter", meta [("primTypeName", JsString "")])]
    [(TfNamed "KeylessAdapterA", meta [("apiSchemaName", JsString "")]);
     (TfNamed "KeylessAdapterB", meta [("apiSchemaName", JsString "")]);
     (TfNamed "CollectionAdapter",
      meta [("apiSchemaName", JsString "CollectionAPI")])]
    [] [] [TfNamed "KeylessAdapterB"].

(** A family whose second schema has the identifier [Torus_2] but the
    schema type name [TorusTwo]. *)
Definition tori : Env :=
  world true
    [(TfNamed "TorusAdapter",
      meta [("primTypeName", JsString "Torus_1");
            ("includeDerivedPrimTypes", JsBool true);
            ("includeSchemaFamily", JsBool true)])]
    []
    [(TfNamed "UsdGeomTorus_1", ("Torus_1", []));
     (TfNamed "UsdGeomTorus_2", ("TorusTwo", [TfNamed "CustomTorus"]));
     (TfNamed "CustomTorus", ("CustomTorus", []))]
    [("Torus_1",
      [ {| identifier := "Torus_1"; type := TfNamed "UsdGeomTorus_1" |};
        {| identifier := "Torus_2"; type := TfNamed "UsdGeomTorus_2" |} ])]
    [].

(** A three-level hierarchy below [Gprim]: [Boundable] has an adapter
    of its own, [Curves] has none. *)
Definition hierarchy : Env :=
  world true
    [(TfNamed "GprimAdapter",
      meta [("primTypeName", JsString "Gprim");
            ("includeDerivedPrimTypes", JsBool true)]);
     (TfNamed "BoundableAdapter", meta [("primTypeName", JsString "Boundable")])]
    []
    [(TfNamed "UsdGeomGprim", ("Gprim", [TfNamed "UsdGeomBoundable";
                                         TfNamed "UsdGeomCurves"]));
     (TfNamed "UsdGeomBoundable", ("Boundable", [TfNamed "UsdGeomCube"]));
     (TfNamed "UsdGeomCurves", ("Curves", [TfNamed "UsdGeomBasisCurves"]));
     (TfNamed "UsdGeomCube", ("Cube", []));
     (TfNamed "UsdGeomBasisCurves", ("BasisCurves", []))]
    [] [].

(** External plugins are disabled: one adapter of each family is marked
    internal, one is not, and one prim adapter has a malformed
    [isInternal] entry. *)
Definition internalOnly : Env :=
  world false
    [(TfNamed "PointsAdapter",
      meta [("isInternal", JsBool true); ("primTypeName", JsString "Points")]);
     (TfNamed "VolumeAdapter", meta [("primTypeName", JsString "Volume")]);
     (TfNamed "HairAdapter",
      meta [("isInternal", JsString "yes"); ("primTypeName", JsString "Hair")]);
     (TfNamed "FieldAdapter",
      meta [("isInternal", JsBool true); ("primTypeName", JsInt 3)])]
    [(TfNamed "CoordSysAdapter",
      meta [("isInternal", JsBool true);
            ("apiSchemaName", JsString "CoordSysAPI")]);
     (TfNamed "ShadowAdapter", meta [("apiSchemaName", JsString "ShadowAPI")])]
    [] [] [].

(** A prim adapter that opts in to derived types and whose
    [includeSchemaFamily] entry holds a string. *)
Definition brokenFamily : Env :=
  world true
    [(TfNamed "ConeAdapter",
      meta [("primTypeName", JsString "Cone");
            ("includeDerivedPrimTypes", JsBool true);
            ("includeSchemaFamily", JsString "true")])]
    []
    [(TfNamed "UsdGeomCone", ("Cone", [TfNamed "MyCone"]));
     (TfNamed "MyCone", ("MyCone", []))]
    [("Cone", [ {| identifier := "Cone_1"; type := TfNamed "UsdGeomCone_1" |} ])]
    [].

End Examples.

(** * Properties *)

(** ** Discovery (Pass 1) *)

Section Discovery.
Variable E : Env.

Lemma primStep_discovered st t metadata s :
  discovered PrimFamily E t metadata s →
  primStep E st t = primRecord t metadata s st.
Proof.
  intros [(plugin & Hp & Hm) (He & Hn)]. unfold primStep.
  rewrite Hp, Hm, He. simpl in Hn. by rewrite Hn.
Qed.

Lemma apiStep_discovered st t metadata s :
  discovered APISchemaFamily E t metadata s →
  apiStep E st t = apiRecord t metadata s st.
Proof.
  intros [(plugin & Hp & Hm) (He & Hn)]. unfold apiStep.
  rewrite Hp, Hm, He. simpl in Hn. by rewrite Hn.
Qed.

(** What [primRecord] leaves in the state, by the shape of the two
    opt-in entries. *)
Lemma primRecord_typeMap t metadata s st :
  _typeMap (primRecord t metadata s st) = <[s := t]> (_typeMap st).
Proof.
  unfold primRecord. simpl.
  destruct (_typeMap st !! s); simpl;
    destruct (metadata !! "includeDerivedPrimTypes") as [[|[]| |]|]; simpl;
    destruct (metadata !! "includeSchemaFamily") as [[|[]| |]|]; done.
Qed.

Lemma primRecord_other t metadata s st :
  _apiSchemaTypeMap (primRecord t metadata s st) = _apiSchemaTypeMap st
  ∧ _keylessApiSchemaAdapterTypes (primRecord t metadata s st)
    = _keylessApiSchemaAdapterTypes st
  ∧ _adapterKeys (primRecord t metadata s st) = _adapterKeys st
  ∧ _apiSchemaAdapterKeys (primRecord t metadata s st)
    = _apiSchemaAdapterKeys st.
Proof.
  unfold primRecord. simpl.
  destruct (_typeMap st !! s); simpl;
    destruct (metadata !! "includeDerivedPrimTypes") as [[|[]| |]|]; simpl;
    destruct (metadata !! "includeSchemaFamily") as [[|[]| |]|]; done.
Qed.

Lemma apiRecord_typeMap t metadata s st :
  s ≠ "" →
  _apiSchemaTypeMap (apiRecord t metadata s st)
  = <[s := t]> (_apiSchemaTypeMap st).
Proof.
  intros Hs. unfold apiRecord. rewrite decide_False by done. simpl.
  destruct (metadata !! "includeDerivedPrimTypes") as [[|[]| |]|]; done.
Qed.

(** The prim loop never touches the API schema members, and the API
    schema loop never touches the prim map or the recorded families. *)
Lemma primStep_frame st t :
  _apiSchemaTypeMap (primStep E st t) = _apiSchemaTypeMap st
  ∧ _keylessApiSchemaAdapterTypes (primStep E st t)
    = _keylessApiSchemaAdapterTypes st
  ∧ _adapterKeys (primStep E st t) = _adapterKeys st
  ∧ _apiSchemaAdapterKeys (primStep E st t) = _apiSchemaAdapterKeys st.
Proof.
  unfold primStep.
  destruct (GetPluginForType E t) as [plugin|]; [|done].
  destruct (isEnabled E _) as [[]|]; try done.
  destruct (_ !! "primTypeName") as [[]|]; try done.
  apply primRecord_other.
Qed.

Lemma apiRecord_frame t metadata s st :
  _typeMap (apiRecord t metadata s st) = _typeMap st
  ∧ includeSchemaFamilies (apiRecord t metadata s st)
    = includeSchemaFamilies st
  ∧ _adapterKeys (apiRecord t metadata s st) = _adapterKeys st
  ∧ _apiSchemaAdapterKeys (apiRecord t metadata s st)
    = _apiSchemaAdapterKeys st.
Proof.
  unfold apiRecord. destruct (decide (s = "")); [done|]. simpl.
  destruct (metadata !! "includeDerivedPrimTypes") as [[|[]| |]|]; done.
Qed.

Lemma apiStep_frame st t :
  _typeMap (apiStep E st t) = _typeMap st
  ∧ includeSchemaFamilies (apiStep E st t) = includeSchemaFamilies st
  ∧ _adapterKeys (apiStep E st t) = _adapterKeys st
  ∧ _apiSchemaAdapterKeys (apiStep E st t) = _apiSchemaAdapterKeys st.
Proof.
  unfold apiStep.
  destruct (GetPluginForType E t) as [plugin|]; [|done].
  destruct (isEnabled E _) as [[]|]; try done.
  destruct (_ !! "apiSchemaName") as [[]|]; try done.
  apply apiRecord_frame.
Qed.

(** Discovery only adds or overwrites entries of the prim map. *)
Lemma primStep_keys st t k :
  is_Some (_typeMap st !! k) → is_Some (_typeMap (primStep E st t) !! k).
Proof.
  intros Hk. unfold primStep.
  destruct (GetPluginForType E t) as [plugin|]; [|done].
  destruct (isEnabled E _) as [[]|]; try done.
  destruct (_ !! "primTypeName") as [[| | |s]|]; try done.
  rewrite primRecord_typeMap. destruct (decide (s = k)) as [->|].
  - rewrite lookup_insert_eq. eauto.
  - by rewrite lookup_insert_ne.
Qed.

Lemma primLoop_keys types st k :
  is_Some (_typeMap st !! k) →
  is_Some (_typeMap (foldl (primStep E) st types) !! k).
Proof.
  revert st. induction types as [|t types IH]; intros st Hk; [done|].
  simpl. by apply IH, primStep_keys.
Qed.

Lemma primLoop_frame types st :
  _apiSchemaTypeMap (foldl (primStep E) st types) = _apiSchemaTypeMap st
  ∧ _keylessApiSchemaAdapterTypes (foldl (primStep E) st types)
    = _keylessApiSchemaAdapterTypes st.
Proof.
  revert st. induction types as [|t types IH]; intros st; [done|].
  simpl. destruct (IH (primStep E st t)) as [-> ->].
  destruct (primStep_frame st t) as (-> & -> & _). done.
Qed.

Lemma apiLoop_frame types st :
  _typeMap (foldl (apiStep E) st types) = _typeMap st
  ∧ _adapterKeys (foldl (apiStep E) st types) = _adapterKeys st.
Proof.
  revert st. induction types as [|t types IH]; intros st; [done|].
  simpl. destruct (IH (apiStep E st t)) as [-> ->].
  destruct (apiStep_frame st t) as (-> & _ & -> & _). done.
Qed.

End Discovery.

(** ** Conflicts and malformed opt-ins *)

Section Conflicts.
Variable E : Env.

Lemma discoverStep_continues f st t rest :
  foldl (discoverStep f E) st (t :: rest)
  = foldl (discoverStep f E) (discoverStep f E st t) rest.
Proof. done. Qed.

Lemma primRecord_conflict t metadata s previous st :
  _typeMap st !! s = Some previous →
  ∃ new, issued st (primRecord t metadata s st) new
         ∧ AdapterConflict s t previous ∈ new.
Proof.
  intros Hprev. unfold primRecord, issued. simpl. rewrite Hprev. simpl.
  destruct (metadata !! "includeDerivedPrimTypes") as [[|[]| |]|]; simpl;
    destruct (metadata !! "includeSchemaFamily") as [[|[]| |]|]; simpl;
    rewrite <- ?app_assoc; (eexists; split; [reflexivity|]);
    set_solver.
Qed.

Lemma apiRecord_no_coding_error t metadata s st :
  ∃ new, issued st (apiRecord t metadata s st) new
         ∧ ∀ d, d ∈ new → severity d ≠ CodingError.
Proof.
  unfold apiRecord, issued. destruct (decide (s = "")); simpl.
  - eexists; split; [reflexivity|].
    intros d ->%list_elem_of_singleton. done.
  - destruct (metadata !! "includeDerivedPrimTypes") as [[|[]| |]|]; simpl;
      rewrite <- ?app_assoc; (eexists; split; [reflexivity|]);
      intros d Hd; repeat (apply elem_of_cons in Hd as [->|Hd]; [done|]);
      by apply elem_of_nil in Hd.
Qed.

(** C1 (as amended).  A candidate whose declared name is already a key
    of its family's map replaces the entry (the last writer wins) and
    the loop goes on with the next candidate.  For a prim adapter the
    step also issues the conflict diagnostic, a coding error that names
    the new and the previous adapter; for an API schema adapter the
    step issues no coding error at all: the overwrite is silent. *)
Theorem overwrite_conflict_by_family
    (f : AdapterFamily) (st : State) (t previous : TfType)
    (metadata : gmap string JsValue) (s : TfToken) (rest : list TfType) :
  declares f E t metadata s →
  familyMap f st !! s = Some previous →
  familyMap f (discoverStep f E st t) !! s = Some t
  ∧ (∃ new, issued st (discoverStep f E st t) new
       ∧ match f with
         | PrimFamily =>
             AdapterConflict s t previous ∈ new
             ∧ severity (AdapterConflict s t previous) = CodingError
         | APISchemaFamily => ∀ d, d ∈ new → severity d ≠ CodingError
         end)
  ∧ foldl (discoverStep f E) st (t :: rest)
    = foldl (discoverStep f E) (discoverStep f E st t) rest.
Proof.
  intros Hdecl Hprev. split; [|split; [|done]].
  - destruct f; simpl in *.
    + rewrite (primStep_discovered E st t metadata s (proj1 Hdecl)).
      rewrite primRecord_typeMap. apply lookup_insert_eq.
    + rewrite (apiStep_discovered E st t metadata s (proj1 Hdecl)).
      rewrite apiRecord_typeMap; [apply lookup_insert_eq|].
      destruct Hdecl as [_ Hs]. by apply Hs.
  - destruct f; simpl in *.
    + rewrite (primStep_discovered E st t metadata s (proj1 Hdecl)).
      destruct (primRecord_conflict t metadata s previous st Hprev)
        as (new & Hnew & Hin).
      exists new. done.
    + rewrite (apiStep_discovered E st t metadata s (proj1 Hdecl)).
      apply apiRecord_no_coding_error.
Qed.

(** C5.  A candidate whose name has been written and whose
    [includeDerivedPrimTypes] entry is present but holds no bool: the
    step ends with a runtime error, the name stays mapped to the
    candidate, neither opt-in is recorded, and the loop goes on. *)
Theorem malformed_includeDerived_keeps_write
    (f : AdapterFamily) (st : State) (t : TfType)
    (metadata : gmap string JsValue) (s : TfToken) (v : JsValue)
    (rest : list TfType) :
  declares f E t metadata s →
  metadata !! "includeDerivedPrimTypes" = Some v →
  isBool v = false →
  familyMap f (discoverStep f E st t) !! s = Some t
  ∧ (∃ new, issued st (discoverStep f E st t)
              (new ++ [IncludeDerivedCorrupted t])
            ∧ severity (IncludeDerivedCorrupted t) = RuntimeError)
  ∧ includeDerivedPrimTypes (discoverStep f E st t)
    = includeDerivedPrimTypes st
  ∧ includeSchemaFamilies (discoverStep f E st t)
    = includeSchemaFamilies st
  ∧ foldl (discoverStep f E) st (t :: rest)
    = foldl (discoverStep f E) (discoverStep f E st t) rest.
Proof.
  intros Hdecl Hv Hb.
  destruct f; simpl.
  - rewrite (primStep_discovered E st t metadata s (proj1 Hdecl)).
    rewrite primRecord_typeMap, lookup_insert_eq.
    unfold primRecord, issued. rewrite Hv. simpl.
    destruct v; try done;
      (split; [done|]);
      (split; [|by destruct (_typeMap st !! s)]);
      destruct (_typeMap st !! s) as [previous|]; simpl;
      [exists [DiscoveredPrim t s; AdapterConflict s t previous]
      |exists [DiscoveredPrim t s]
      |exists [DiscoveredPrim t s; AdapterConflict s t previous]
      |exists [DiscoveredPrim t s]
      |exists [DiscoveredPrim t s; AdapterConflict s t previous]
      |exists [DiscoveredPrim t s]];
      by rewrite <- !app_assoc.
  - rewrite (apiStep_discovered E st t metadata s (proj1 Hdecl)).
    assert (s ≠ "") as Hs by (destruct Hdecl as [_ Hs]; by apply Hs).
    rewrite apiRecord_typeMap, lookup_insert_eq by done.
    unfold apiRecord, issued. rewrite decide_False by done. rewrite Hv.
    destruct v; try done; simpl;
      (split; [done|]); (split; [|done]);
      exists [DiscoveredAPISchema t]; by rewrite <- !app_assoc.
Qed.

End Conflicts.

(** ** Map primitives *)

Lemma emplace_lookup key v (tm : gmap string TfType) k :
  (emplace key v tm).1 !! k
  = match tm !! k with
    | Some x => Some x
    | None => if decide (k = key) then Some v else None
    end.
Proof.
  unfold emplace. destruct (tm !! key) as [x|] eqn:Hkey; simpl.
  - destruct (tm !! k) eqn:Hk; [done|].
    case_decide; [congruence|done].
  - destruct (decide (k = key)) as [->|Hne].
    + by rewrite lookup_insert_eq, Hkey.
    + rewrite lookup_insert_ne by done. by destruct (tm !! k).
Qed.

Lemma emplace_inserted key v (tm : gmap string TfType) :
  (emplace key v tm).2 = bool_decide (tm !! key = None).
Proof. unfold emplace. by destruct (tm !! key). Qed.

Lemma subscript_lookup (tm : gmap string TfType) key k :
  (subscript tm key).2 !! k
  = match tm !! k with
    | Some x => Some x
    | None => if decide (k = key) then Some TfUnknown else None
    end.
Proof.
  unfold subscript. destruct (tm !! key) as [x|] eqn:Hkey; simpl.
  - destruct (tm !! k) eqn:Hk; [done|].
    case_decide; [congruence|done].
  - destruct (decide (k = key)) as [->|Hne].
    + by rewrite lookup_insert_eq, Hkey.
    + rewrite lookup_insert_ne by done. by destruct (tm !! k).
Qed.

Lemma subscript_value (tm : gmap string TfType) key :
  (subscript tm key).1 = default TfUnknown (tm !! key).
Proof. unfold subscript. by destruct (tm !! key). Qed.

Lemma subscript_self (tm : gmap string TfType) key :
  (subscript tm key).2 !! key = Some (subscript tm key).1.
Proof.
  rewrite subscript_lookup, subscript_value.
  destruct (tm !! key); [done|]. by rewrite decide_True.
Qed.

(** ** Schema families (Pass 2) *)

Section Families.
Variable E : Env.

Lemma familyVariant_typeMap familyName includeDerived a st si :
  _typeMap (familyVariant E familyName includeDerived a st si)
  = (emplace (identifier si) a (_typeMap st)).1.
Proof.
  unfold familyVariant, emplace.
  destruct (_typeMap st !! identifier si); [done|]. simpl.
  by destruct includeDerived.
Qed.

Lemma familyVariant_frame familyName includeDerived a st si :
  _apiSchemaTypeMap (familyVariant E familyName includeDerived a st si)
  = _apiSchemaTypeMap st
  ∧ _keylessApiSchemaAdapterTypes
      (familyVariant E familyName includeDerived a st si)
    = _keylessApiSchemaAdapterTypes st.
Proof.
  unfold familyVariant, emplace.
  destruct (_typeMap st !! identifier si); [done|]. simpl.
  by destruct includeDerived.
Qed.

Lemma familyVariants_lookup familyName includeDerived a variants st k :
  _typeMap (foldl (familyVariant E familyName includeDerived a) st variants)
    !! k
  = match _typeMap st !! k with
    | Some x => Some x
    | None => if decide (k ∈ identifier <$> variants) then Some a else None
    end.
Proof.
  revert st. induction variants as [|si variants IH]; intros st; simpl.
  - by destruct (_typeMap st !! k).
  - rewrite IH, familyVariant_typeMap, emplace_lookup.
    destruct (_typeMap st !! k) as [x|]; [done|].
    destruct (decide (k = identifier si)) as [->|Hne].
    + rewrite decide_True by apply list_elem_of_here. done.
    + destruct (decide (k ∈ identifier <$> variants)).
      * rewrite decide_True by (by apply list_elem_of_further). done.
      * rewrite decide_False; [done|].
        by intros [?|?]%elem_of_cons.
Qed.

Lemma familyVariants_frame familyName includeDerived a variants st :
  _apiSchemaTypeMap
    (foldl (familyVariant E familyName includeDerived a) st variants)
  = _apiSchemaTypeMap st
  ∧ _keylessApiSchemaAdapterTypes
      (foldl (familyVariant E familyName includeDerived a) st variants)
    = _keylessApiSchemaAdapterTypes st.
Proof.
  revert st. induction variants as [|si variants IH]; intros st; [done|].
  simpl. destruct (IH (familyVariant E familyName includeDerived a st si))
    as [-> ->].
  apply familyVariant_frame.
Qed.

(** The map after one recorded pair: old entries are kept; the family
    name and the identifiers of the family that had no entry now map to
    the adapter type read for the family name. *)
Lemma familyStep_lookup st pair k :
  _typeMap (familyStep E st pair) !! k
  = match _typeMap st !! k with
    | Some x => Some x
    | None =>
        if decide (k = pair.1
                   ∨ k ∈ identifier <$> FindSchemaInfosInFamily E pair.1)
        then Some (default TfUnknown (_typeMap st !! pair.1))
        else None
    end.
Proof.
  unfold familyStep.
  pose proof (subscript_lookup (_typeMap st) pair.1 k) as Hsub.
  pose proof (subscript_value (_typeMap st) pair.1) as Hval.
  destruct (subscript (_typeMap st) pair.1) as [a tm]. simpl in *.
  rewrite familyVariants_lookup. simpl. rewrite Hsub, Hval.
  destruct (_typeMap st !! k) as [x|] eqn:Hk; [done|].
  destruct (decide (k = pair.1)) as [->|Hne].
  - rewrite Hk. simpl. rewrite decide_True by auto. done.
  - destruct (decide (k ∈ _)).
    + rewrite decide_True by auto. done.
    + rewrite decide_False by tauto. done.
Qed.

Lemma familyStep_frame st pair :
  _apiSchemaTypeMap (familyStep E st pair) = _apiSchemaTypeMap st
  ∧ _keylessApiSchemaAdapterTypes (familyStep E st pair)
    = _keylessApiSchemaAdapterTypes st.
Proof.
  unfold familyStep. destruct (subscript (_typeMap st) pair.1) as [a tm].
  destruct (familyVariants_frame pair.1 pair.2 a
              (FindSchemaInfosInFamily E pair.1) (with_typeMap tm st))
    as [-> ->].
  done.
Qed.

Lemma familyStep_preserves st pair k v :
  _typeMap st !! k = Some v → _typeMap (familyStep E st pair) !! k = Some v.
Proof. intros Hk. by rewrite familyStep_lookup, Hk. Qed.

Lemma familyLoop_preserves pairs st k v :
  _typeMap st !! k = Some v →
  _typeMap (foldl (familyStep E) st pairs) !! k = Some v.
Proof.
  revert st. induction pairs as [|pair pairs IH]; intros st Hk; [done|].
  simpl. by apply IH, familyStep_preserves.
Qed.

Lemma familyLoop_frame pairs st :
  _apiSchemaTypeMap (foldl (familyStep E) st pairs) = _apiSchemaTypeMap st
  ∧ _keylessApiSchemaAdapterTypes (foldl (familyStep E) st pairs)
    = _keylessApiSchemaAdapterTypes st.
Proof.
  revert st. induction pairs as [|pair pairs IH]; intros st; [done|].
  simpl. destruct (IH (familyStep E st pair)) as [-> ->].
  apply familyStep_frame.
Qed.

(** C4.  Family propagation never overwrites: an entry that is in the
    prim map when the pass starts ([processed] empty), or once some of
    the recorded pairs have been processed, is still there with the same
    adapter type after any further pairs, whatever they are and in
    whatever order they come. *)
Theorem family_propagation_never_overwrites
    (processed : list (TfToken * bool)) (st : State)
    (k : TfToken) (v : TfType) :
  _typeMap (foldl (familyStep E) st processed) !! k = Some v →
  ∀ remaining : list (TfToken * bool),
    _typeMap (foldl (familyStep E) st (processed ++ remaining)) !! k
    = Some v.
Proof.
  intros Hk remaining. rewrite foldl_app. by apply familyLoop_preserves.
Qed.

End Families.

(** ** Derived types (Pass 3) *)

Section DerivedTypes.
Variable E : Env.

Lemma Unshadowed_weaken (tm tm1 : gmap string TfType) stack stack1 d :
  (∀ k, tm1 !! k = None → tm !! k = None) →
  (∀ x, x ∈ stack1 → Unshadowed E tm stack x) →
  Unshadowed E tm1 stack1 d → Unshadowed E tm stack d.
Proof.
  intros Htm Hstack. induction 1 as [d Hd|p d _ IH Hname Hnone Hd].
  - by apply Hstack.
  - eapply Unshadowed_child; eauto.
Qed.

(** The three outcomes of one iteration of the walk. *)
Lemma propagate_unnamed fuel r a d stack (tm : gmap string TfType) log :
  GetSchemaTypeName E d = "" →
  propagate E (S fuel) r a (d :: stack) tm log
  = propagate E fuel r a stack tm log.
Proof. intros Hn. simpl. by rewrite decide_True. Qed.

Lemma propagate_present fuel r a d stack (tm : gmap string TfType) log :
  is_Some (tm !! GetSchemaTypeName E d) →
  propagate E (S fuel) r a (d :: stack) tm log
  = propagate E fuel r a stack tm log.
Proof.
  intros [x Hx]. simpl. case_decide; [done|].
  unfold emplace. by rewrite Hx.
Qed.

Lemma propagate_absent fuel r a d stack (tm : gmap string TfType) log :
  GetSchemaTypeName E d ≠ "" →
  tm !! GetSchemaTypeName E d = None →
  propagate E (S fuel) r a (d :: stack) tm log
  = propagate E fuel r a
      (reverse (GetDirectlyDerivedTypes E d) ++ stack)
      (<[GetSchemaTypeName E d := a]> tm)
      (log ++ [DerivedMapping r (GetSchemaTypeName E d)]).
Proof.
  intros Hn Hx. simpl. rewrite decide_False by done.
  unfold emplace. by rewrite Hx.
Qed.

(** The walk keeps every entry it finds, and each entry it adds maps a
    non-empty name of an unshadowed type to the adapter type. *)
Lemma propagate_spec fuel r a stack (tm : gmap string TfType) log tm' log' :
  propagate E fuel r a stack tm log = Some (tm', log') →
  (∀ k v, tm !! k = Some v → tm' !! k = Some v)
  ∧ (∀ k v, tm !! k = None → tm' !! k = Some v →
       v = a ∧ k ≠ "" ∧
       ∃ d, Unshadowed E tm stack d ∧ GetSchemaTypeName E d = k).
Proof.
  revert stack tm log.
  induction fuel as [|fuel IH]; intros stack tm log Hrun.
  - destruct stack; simpl in Hrun; [|done].
    injection Hrun as <- <-. split; [done|]. intros k v Hk Hk'. congruence.
  - destruct stack as [|d stack].
    { simpl in Hrun. injection Hrun as <- <-. split; [done|].
      intros k v Hk Hk'. congruence. }
    assert (∀ x, x ∈ stack → Unshadowed E tm (d :: stack) x) as Hrest.
    { intros x Hx. by apply Unshadowed_stack, list_elem_of_further. }
    destruct (decide (GetSchemaTypeName E d = "")) as [Hn|Hn].
    { rewrite propagate_unnamed in Hrun by done.
      destruct (IH _ _ _ Hrun) as [Hkeep Hnew]. split; [done|].
      intros k v Hk Hk'. destruct (Hnew k v Hk Hk') as (-> & ? & x & Hx & <-).
      repeat split; [done|]. exists x. split; [|done].
      eapply Unshadowed_weaken; [| |exact Hx]; eauto. }
    destruct (tm !! GetSchemaTypeName E d) as [y|] eqn:Hd.
    { rewrite propagate_present in Hrun by eauto.
      destruct (IH _ _ _ Hrun) as [Hkeep Hnew]. split; [done|].
      intros k v Hk Hk'. destruct (Hnew k v Hk Hk') as (-> & ? & x & Hx & <-).
      repeat split; [done|]. exists x. split; [|done].
      eapply Unshadowed_weaken; [| |exact Hx]; eauto. }
    rewrite propagate_absent in Hrun by done.
    destruct (IH _ _ _ Hrun) as [Hkeep Hnew]. split.
    + intros k v Hk. apply Hkeep.
      rewrite lookup_insert_ne; [done|]. congruence.
    + intros k v Hk Hk'.
      destruct (decide (k = GetSchemaTypeName E d)) as [->|Hne].
      * assert (tm' !! GetSchemaTypeName E d = Some a) as Ha
          by (apply Hkeep, lookup_insert_eq).
        repeat split; [congruence|done|].
        exists d. split; [|done]. apply Unshadowed_stack, list_elem_of_here.
      * destruct (Hnew k v) as (-> & ? & x & Hx & <-); [|done|].
        { rewrite lookup_insert_ne; [done|]. congruence. }
        repeat split; [done|]. exists x. split; [|done].
        eapply Unshadowed_weaken; [| |exact Hx].
        -- intros k Hnone. destruct (decide (k = GetSchemaTypeName E d))
             as [->|]; [done|].
           by rewrite lookup_insert_ne in Hnone.
        -- intros c Hc. apply elem_of_app in Hc as [Hc|Hc]; [|by apply Hrest].
           rewrite elem_of_reverse in Hc.
           apply (Unshadowed_child E tm (d :: stack) d c); [|done..].
           apply Unshadowed_stack, list_elem_of_here.
Qed.

(** The walk only appends to the diagnostics. *)
Lemma propagate_log fuel r a stack (tm : gmap string TfType) log tm' log' :
  propagate E fuel r a stack tm log = Some (tm', log') →
  ∃ new, log' = log ++ new ∧ ∀ d, d ∈ new → severity d = Debug.
Proof.
  revert stack tm log.
  induction fuel as [|fuel IH]; intros stack tm log Hrun.
  - destruct stack; simpl in Hrun; [|done].
    injection Hrun as <- <-. exists []. rewrite app_nil_r. set_solver.
  - destruct stack as [|d stack].
    { simpl in Hrun. injection Hrun as <- <-. exists [].
      rewrite app_nil_r. set_solver. }
    destruct (decide (GetSchemaTypeName E d = "")) as [Hn|Hn].
    { rewrite propagate_unnamed in Hrun by done. eauto. }
    destruct (tm !! GetSchemaTypeName E d) as [y|] eqn:Hd.
    { rewrite propagate_present in Hrun by eauto. eauto. }
    rewrite propagate_absent in Hrun by done.
    destruct (IH _ _ _ Hrun) as (new & -> & Hsev).
    exists (DerivedMapping r (GetSchemaTypeName E d) :: new).
    split; [by rewrite <- app_assoc|].
    intros x [->|Hx]%elem_of_cons; [done|by apply Hsev].
Qed.

(** One root: entries are kept; the entries added map to the adapter
    type read for the root, and are the root itself or a non-empty
    name. *)
Lemma processRoot_spec fuel r (tm : gmap string TfType) log tm' log' :
  processRoot E fuel r tm log = Some (tm', log') →
  (∀ k v, tm !! k = Some v → tm' !! k = Some v)
  ∧ (∀ k v, tm !! k = None → tm' !! k = Some v →
       v = default TfUnknown (tm !! r)
       ∧ IsUnknown (GetTypeFromSchemaTypeName E r) = false
       ∧ (k = r ∨ k ≠ "")).
Proof.
  unfold processRoot.
  destruct (IsUnknown (GetTypeFromSchemaTypeName E r)) eqn:Hroot.
  { intros [= <- <-]. split; [done|]. intros k v Hk Hk'. congruence. }
  pose proof (subscript_lookup tm r) as Hsub.
  pose proof (subscript_value tm r) as Hval.
  destruct (subscript tm r) as [a tm1]. simpl in *. subst a.
  intros Hrun. destruct (propagate_spec _ _ _ _ _ _ _ _ Hrun) as [Hkeep Hnew].
  split.
  - intros k v Hk. apply Hkeep. by rewrite Hsub, Hk.
  - intros k v Hk Hk'. split; [|split; [done|]].
    + destruct (tm1 !! k) as [x|] eqn:Hk1.
      * apply Hkeep in Hk1 as Hk2. rewrite Hsub, Hk in Hk1.
        case_decide; [|done]. subst k. rewrite Hk. simpl. congruence.
      * by destruct (Hnew k v Hk1 Hk') as (-> & _).
    + destruct (tm1 !! k) as [x|] eqn:Hk1.
      * rewrite Hsub, Hk in Hk1. case_decide; [by left|done].
      * right. by destruct (Hnew k v Hk1 Hk') as (_ & ? & _).
Qed.

Lemma processDerivedTypes_preserves fuel roots (tm : gmap string TfType)
    log tm' log' k v :
  _ProcessDerivedTypes E fuel roots tm log = Some (tm', log') →
  tm !! k = Some v → tm' !! k = Some v.
Proof.
  revert tm log. induction roots as [|r roots IH]; intros tm log; simpl.
  - by intros [= <- <-].
  - destruct (processRoot E fuel r tm log) as [[tm1 log1]|] eqn:Hroot;
      [|done].
    intros Hrun Hk. eapply IH; [done|].
    by apply (processRoot_spec _ _ _ _ _ _ Hroot).
Qed.

(** When every root is a key of the map, Pass 3 adds only non-empty
    names, mapped to adapter types the map already held. *)
Lemma processDerivedTypes_rooted fuel roots (tm : gmap string TfType)
    log tm' log' :
  _ProcessDerivedTypes E fuel roots tm log = Some (tm', log') →
  (∀ r, r ∈ roots → is_Some (tm !! r)) →
  ∀ k v, tm !! k = None → tm' !! k = Some v →
    k ≠ "" ∧ ∃ k0, tm !! k0 = Some v.
Proof.
  revert tm log. induction roots as [|r roots IH]; intros tm log; simpl.
  - intros [= <- <-] _ k v Hk Hk'. congruence.
  - destruct (processRoot E fuel r tm log) as [[tm1 log1]|] eqn:Hroot;
      [|done].
    intros Hrun Hroots k v Hk Hk'.
    destruct (processRoot_spec _ _ _ _ _ _ Hroot) as [Hkeep Hnew].
    destruct (Hroots r) as [a Ha]; [apply list_elem_of_here|].
    assert (∀ k v, tm1 !! k = Some v → k ≠ "" ∨ tm !! k = Some v) as Hone.
    { intros k1 v1 Hk1. destruct (tm !! k1) as [x|] eqn:Hx.
      - right. apply Hkeep in Hx. congruence.
      - left. destruct (Hnew k1 v1 Hx Hk1) as (_ & _ & [->|?]); [|done].
        congruence. }
    assert (∀ k v, tm1 !! k = Some v → ∃ k0, tm !! k0 = Some v) as Hval.
    { intros k1 v1 Hk1. destruct (tm !! k1) as [x|] eqn:Hx.
      - exists k1. apply Hkeep in Hx as Hx'. congruence.
      - destruct (Hnew k1 v1 Hx Hk1) as (-> & _). rewrite Ha. eauto. }
    destruct (tm1 !! k) as [x|] eqn:Hk1.
    + assert (tm' !! k = Some x) as Hx
        by (eapply processDerivedTypes_preserves; eauto).
      assert (x = v) as -> by congruence.
      split; [|by eapply Hval].
      destruct (Hone k v Hk1); [done|congruence].
    + destruct (IH tm1 log1 Hrun) with (k := k) (v := v)
        as (? & k0 & Hk0); [|done..|].
      { intros r' Hr'.
        destruct (Hroots r') as [y Hy]; [by apply list_elem_of_further|].
        apply Hkeep in Hy. eauto. }
      split; [done|]. by eapply Hval.
Qed.

End DerivedTypes.

(** ** Termination

    On a finite type graph the walk ends: every iteration pops the stack,
    and it pushes at most [D] types, each time for a name of [N] that had
    no entry before. *)

Section Termination.
Variable E : Env.
Variable N : gset string.
Variable D : nat.
Hypothesis Hfin : FiniteGraph E N D.

Lemma unmapped_insert (tm : gmap string TfType) k a :
  k ∈ N → tm !! k = None →
  size (N ∖ dom tm) = S (size (N ∖ dom (<[k := a]> tm))).
Proof.
  intros HN Hk. apply not_elem_of_dom in Hk.
  assert (N ∖ dom tm = {[k]} ∪ N ∖ dom (<[k := a]> tm)) as ->.
  { rewrite dom_insert_L. apply set_eq. intros x.
    rewrite elem_of_union, !elem_of_difference, elem_of_union,
      elem_of_singleton.
    destruct (decide (x = k)) as [->|]; tauto. }
  rewrite size_union, size_singleton; [done|].
  rewrite dom_insert_L. intros x. rewrite elem_of_singleton,
    elem_of_difference, elem_of_union, elem_of_singleton. tauto.
Qed.

Lemma propagate_total fuel r a stack (tm : gmap string TfType) log :
  (∀ d, d ∈ stack → GetSchemaTypeName E d ∈ N) →
  (length stack + D * size (N ∖ dom tm) ≤ fuel)%nat →
  is_Some (propagate E fuel r a stack tm log).
Proof.
  revert stack tm log.
  induction fuel as [|fuel IH]; intros stack tm log Hstack Hfuel.
  - destruct stack; simpl in *; [eauto|lia].
  - destruct stack as [|d stack]; [simpl; eauto|].
    assert (∀ x, x ∈ stack → GetSchemaTypeName E x ∈ N) as Hrest
      by (intros x Hx; by apply Hstack, list_elem_of_further).
    simpl in Hfuel.
    destruct (decide (GetSchemaTypeName E d = "")) as [Hn|Hn].
    { rewrite propagate_unnamed by done. apply IH; [done|lia]. }
    destruct (tm !! GetSchemaTypeName E d) as [y|] eqn:Hd.
    { rewrite propagate_present by eauto. apply IH; [done|lia]. }
    rewrite propagate_absent by done.
    destruct Hfin as [Hnames Hdeg]. apply IH.
    + intros x [Hx|Hx]%elem_of_app; [|by apply Hrest].
      rewrite elem_of_reverse in Hx. by eapply Hnames.
    + rewrite length_app, length_reverse.
      pose proof (Hdeg d).
      rewrite (unmapped_insert tm (GetSchemaTypeName E d) a) in Hfuel;
        [|apply Hstack, list_elem_of_here|done].
      lia.
Qed.

Lemma processRoot_total fuel r (tm : gmap string TfType) log :
  (D + D * size N ≤ fuel)%nat →
  is_Some (processRoot E fuel r tm log).
Proof.
  intros Hfuel. unfold processRoot.
  destruct (IsUnknown (GetTypeFromSchemaTypeName E r)); [eauto|].
  destruct (subscript tm r) as [a tm1]. destruct Hfin as [Hnames Hdeg].
  apply propagate_total.
  - intros d Hd. rewrite elem_of_reverse in Hd. by eapply Hnames.
  - rewrite length_reverse.
    pose proof (Hdeg (GetTypeFromSchemaTypeName E r)).
    assert (size (N ∖ dom tm1) ≤ size N)%nat
      by (apply subseteq_size; intros x [? _]%elem_of_difference; done).
    nia.
Qed.

Lemma processDerivedTypes_total fuel roots (tm : gmap string TfType) log :
  (D + D * size N ≤ fuel)%nat →
  is_Some (_ProcessDerivedTypes E fuel roots tm log).
Proof.
  intros Hfuel. revert tm log.
  induction roots as [|r roots IH]; intros tm log; simpl; [eauto|].
  destruct (processRoot_total fuel r tm log Hfuel) as [[tm1 log1] ->].
  apply IH.
Qed.

(** The constructor returns a registry once the fuel covers the graph. *)
Lemma UsdImagingAdapterRegistry_total fuel :
  (D + D * size N ≤ fuel)%nat →
  is_Some (UsdImagingAdapterRegistry E fuel).
Proof.
  intros Hfuel. unfold UsdImagingAdapterRegistry.
  match goal with
  | |- context [_ProcessDerivedTypes E fuel ?roots ?tm ?log] =>
      destruct (processDerivedTypes_total fuel roots tm log Hfuel)
        as [[tm1 log1] ->]
  end.
  match goal with
  | |- context [_ProcessDerivedTypes E fuel ?roots ?tm ?log] =>
      destruct (processDerivedTypes_total fuel roots tm log Hfuel)
        as [[tm2 log2] ->]
  end.
  eauto.
Qed.

End Termination.

(** ** Shadowing and default roots *)

Section Shadowing.
Variable E : Env.

(** Every named type on the stack has an entry when the walk ends. *)
Lemma propagate_covers fuel r a stack (tm : gmap string TfType) log tm' log' :
  propagate E fuel r a stack tm log = Some (tm', log') →
  ∀ d, d ∈ stack → GetSchemaTypeName E d ≠ "" →
    is_Some (tm' !! GetSchemaTypeName E d).
Proof.
  revert stack tm log.
  induction fuel as [|fuel IH]; intros stack tm log Hrun x Hx Hnamed.
  - destruct stack; simpl in Hrun; [|done]. by apply elem_of_nil in Hx.
  - destruct stack as [|d stack]; [by apply elem_of_nil in Hx|].
    destruct (decide (GetSchemaTypeName E d = "")) as [Hn|Hn].
    { rewrite propagate_unnamed in Hrun by done.
      apply elem_of_cons in Hx as [->|Hx]; [done|]. eauto. }
    destruct (tm !! GetSchemaTypeName E d) as [y|] eqn:Hd.
    { rewrite propagate_present in Hrun by eauto.
      apply elem_of_cons in Hx as [->|Hx]; [|by eauto].
      exists y. by apply (propagate_spec _ _ _ _ _ _ _ _ _ Hrun). }
    rewrite propagate_absent in Hrun by done.
    apply elem_of_cons in Hx as [->|Hx].
    + exists a. apply (propagate_spec _ _ _ _ _ _ _ _ _ Hrun).
      apply lookup_insert_eq.
    + eapply IH; [exact Hrun| |done]. apply elem_of_app. by right.
Qed.

(** Pass 3 over a list of roots is Pass 3 over its first part followed
    by Pass 3 over the rest. *)
Lemma processDerivedTypes_app fuel roots1 roots2 (tm : gmap string TfType)
    log :
  _ProcessDerivedTypes E fuel (roots1 ++ roots2) tm log
  = match _ProcessDerivedTypes E fuel roots1 tm log with
    | Some (tm1, log1) => _ProcessDerivedTypes E fuel roots2 tm1 log1
    | None => None
    end.
Proof.
  revert tm log. induction roots1 as [|r roots1 IH]; intros tm log; [done|].
  simpl. destruct (processRoot E fuel r tm log) as [[tm1 log1]|]; [|done].
  apply IH.
Qed.

(** Each entry a walk adds is the name of an unshadowed type below which
    the walk has descended. *)
Lemma propagate_descends fuel r a stack (tm : gmap string TfType) log
    tm' log' k :
  propagate E fuel r a stack tm log = Some (tm', log') →
  tm !! k = None →
  is_Some (tm' !! k) →
  ∃ d, GetSchemaTypeName E d = k
       ∧ Unshadowed E tm stack d
       ∧ ∀ c, c ∈ GetDirectlyDerivedTypes E d →
              GetSchemaTypeName E c ≠ "" →
              is_Some (tm' !! GetSchemaTypeName E c).
Proof.
  revert stack tm log.
  induction fuel as [|fuel IH]; intros stack tm log Hrun Hk Hk'.
  - destruct stack; simpl in Hrun; [|done]. injection Hrun as <- <-.
    rewrite Hk in Hk'. by destruct Hk'.
  - destruct stack as [|d stack].
    { simpl in Hrun. injection Hrun as <- <-.
      rewrite Hk in Hk'. by destruct Hk'. }
    assert (∀ x, x ∈ stack → Unshadowed E tm (d :: stack) x) as Hrest.
    { intros x Hx. by apply Unshadowed_stack, list_elem_of_further. }
    destruct (decide (GetSchemaTypeName E d = "")) as [Hn|Hn].
    { rewrite propagate_unnamed in Hrun by done.
      destruct (IH _ _ _ Hrun Hk Hk') as (x & <- & Hx & Hcover).
      exists x. repeat split; [|done].
      eapply Unshadowed_weaken; [| |exact Hx]; eauto. }
    destruct (tm !! GetSchemaTypeName E d) as [y|] eqn:Hd.
    { rewrite propagate_present in Hrun by eauto.
      destruct (IH _ _ _ Hrun Hk Hk') as (x & <- & Hx & Hcover).
      exists x. repeat split; [|done].
      eapply Unshadowed_weaken; [| |exact Hx]; eauto. }
    rewrite propagate_absent in Hrun by done.
    destruct (decide (k = GetSchemaTypeName E d)) as [->|Hne].
    + exists d. split; [done|].
      split; [apply Unshadowed_stack, list_elem_of_here|].
      intros c Hc Hnamed.
      eapply (propagate_covers _ _ _ _ _ _ _ _ Hrun); [|done].
      apply elem_of_app. left. by rewrite elem_of_reverse.
    + destruct (IH _ _ _ Hrun) as (x & <- & Hx & Hcover); [|done|].
      { by rewrite lookup_insert_ne. }
      exists x. repeat split; [|done].
      eapply Unshadowed_weaken; [| |exact Hx].
      * intros k0 Hnone. destruct (decide (k0 = GetSchemaTypeName E d))
          as [->|]; [done|].
        by rewrite lookup_insert_ne in Hnone.
      * intros c Hc. apply elem_of_app in Hc as [Hc|Hc]; [|by apply Hrest].
        rewrite elem_of_reverse in Hc.
        apply (Unshadowed_child E tm (d :: stack) d c); [|done..].
        apply Unshadowed_stack, list_elem_of_here.
Qed.

(** What [processRoot] does for a root that resolves to a type, in terms
    of the adapter type read for the root and the map after that read. *)
Lemma processRoot_walk fuel r (tm : gmap string TfType) log tm' log' :
  IsUnknown (GetTypeFromSchemaTypeName E r) = false →
  processRoot E fuel r tm log = Some (tm', log') →
  propagate E fuel r (default TfUnknown (tm !! r))
    (reverse (GetDirectlyDerivedTypes E (GetTypeFromSchemaTypeName E r)))
    (subscript tm r).2 log
  = Some (tm', log').
Proof.
  intros Hvalid. unfold processRoot. rewrite Hvalid.
  rewrite <- subscript_value. by destruct (subscript tm r).
Qed.

(** C3.  Pass 3 over the enqueued roots, for any root [primTypeName] of
    the list that resolves to a type.  The pass runs the roots before
    it, then [processRoot] on it, then the roots after it, and no step
    ever changes an entry that exists: entries are inserted only if
    absent.  For the root itself: the ancestor's adapter type is the one
    the map holds for the root (the unknown type when the root has no
    entry, which the read then inserts).  Every direct subtype with a
    name ends with an entry: its own if it had one, the ancestor's
    adapter type otherwise.  Every other entry the root's walk adds maps
    to the ancestor's adapter type the non-empty name of a type that is a
    direct subtype or lies below subtypes all of which had a name and no
    entry when the walk began (nothing below a mapped subtype is reached
    through it), and the walk has descended into that type: all its named
    direct subtypes have an entry.  One iteration on the subtype
    [derivedType] inserts it and pushes its direct subtypes exactly when
    its name is not empty and absent from the map, and otherwise only
    pops it.  On a finite type graph the pass ends. *)
Theorem derived_propagation_shadowing
    (fuel : nat) (before : list TfToken) (primTypeName : TfToken)
    (after : list TfToken) (tm tm' : gmap string TfType)
    (log log' : list Diagnostic) :
  _ProcessDerivedTypes E fuel (before ++ primTypeName :: after) tm log
  = Some (tm', log') →
  IsUnknown (GetTypeFromSchemaTypeName E primTypeName) = false →
  ∃ (tm1 tm2 : gmap string TfType) (log1 log2 : list Diagnostic),
    _ProcessDerivedTypes E fuel before tm log = Some (tm1, log1)
    ∧ processRoot E fuel primTypeName tm1 log1 = Some (tm2, log2)
    ∧ _ProcessDerivedTypes E fuel after tm2 log2 = Some (tm', log')
    ∧ (∀ k v, tm !! k = Some v → tm1 !! k = Some v)
    ∧ (∀ k v, tm1 !! k = Some v → tm2 !! k = Some v)
    ∧ (∀ k v, tm2 !! k = Some v → tm' !! k = Some v)
    ∧ tm2 !! primTypeName = Some (default TfUnknown (tm1 !! primTypeName))
    ∧ (∀ d, d ∈ GetDirectlyDerivedTypes E
                  (GetTypeFromSchemaTypeName E primTypeName) →
            GetSchemaTypeName E d ≠ "" →
            tm2 !! GetSchemaTypeName E d
            = Some (default (default TfUnknown (tm1 !! primTypeName))
                      ((subscript tm1 primTypeName).2
                         !! GetSchemaTypeName E d)))
    ∧ (∀ k v, (subscript tm1 primTypeName).2 !! k = None →
              tm2 !! k = Some v →
              v = default TfUnknown (tm1 !! primTypeName)
              ∧ k ≠ ""
              ∧ ∃ d, GetSchemaTypeName E d = k
                     ∧ Unshadowed E (subscript tm1 primTypeName).2
                         (reverse (GetDirectlyDerivedTypes E
                                     (GetTypeFromSchemaTypeName E
                                        primTypeName))) d
                     ∧ ∀ c, c ∈ GetDirectlyDerivedTypes E d →
                            GetSchemaTypeName E c ≠ "" →
                            is_Some (tm2 !! GetSchemaTypeName E c))
    ∧ (∀ n derivedType rest (tm0 : gmap string TfType) log0,
         propagate E (S n) primTypeName
           (default TfUnknown (tm1 !! primTypeName)) (derivedType :: rest)
           tm0 log0
         = if decide (GetSchemaTypeName E derivedType ≠ ""
                      ∧ tm0 !! GetSchemaTypeName E derivedType = None)
           then
             propagate E n primTypeName
               (default TfUnknown (tm1 !! primTypeName))
               (reverse (GetDirectlyDerivedTypes E derivedType) ++ rest)
               (<[GetSchemaTypeName E derivedType
                  := default TfUnknown (tm1 !! primTypeName)]> tm0)
               (log0 ++ [DerivedMapping primTypeName
                           (GetSchemaTypeName E derivedType)])
           else
             propagate E n primTypeName
               (default TfUnknown (tm1 !! primTypeName)) rest tm0 log0)
    ∧ (∀ N D fuel',
         FiniteGraph E N D → (D + D * size N ≤ fuel')%nat →
         is_Some (_ProcessDerivedTypes E fuel'
                    (before ++ primTypeName :: after) tm log)).
Proof.
  intros Hpass Hvalid. rewrite processDerivedTypes_app in Hpass.
  destruct (_ProcessDerivedTypes E fuel before tm log)
    as [[tm1 log1]|] eqn:Hbefore; [|done].
  simpl in Hpass.
  destruct (processRoot E fuel primTypeName tm1 log1)
    as [[tm2 log2]|] eqn:Hroot; [|done].
  exists tm1, tm2, log1, log2.
  pose proof (processRoot_walk _ _ _ _ _ _ Hvalid Hroot) as Hwalk.
  destruct (propagate_spec E _ _ _ _ _ _ _ _ Hwalk) as [Hkeep Hnew].
  pose proof (subscript_self tm1 primTypeName) as Hself.
  rewrite subscript_value in Hself.
  split; [done|]. split; [done|]. split; [done|].
  split; [intros k v; by eapply processDerivedTypes_preserves|].
  split; [intros k v; by apply (processRoot_spec E _ _ _ _ _ _ Hroot)|].
  split; [intros k v; by eapply processDerivedTypes_preserves|].
  split; [by apply Hkeep|].
  split; [|split; [|split]].
  - intros d Hd Hnamed.
    destruct (propagate_covers _ _ _ _ _ _ _ _ Hwalk d) as [v Hv];
      [by rewrite elem_of_reverse|done|].
    destruct ((subscript tm1 primTypeName).2 !! GetSchemaTypeName E d)
      as [x|] eqn:Hx; simpl.
    + by apply Hkeep.
    + rewrite Hv. f_equal. by destruct (Hnew _ _ Hx Hv).
  - intros k v Hk Hk'.
    destruct (Hnew k v Hk Hk') as (-> & Hne & _).
    split; [done|]. split; [done|].
    eapply propagate_descends; [exact Hwalk|done|eauto].
  - intros n d rest tm0 log0. case_decide as Hcase.
    + destruct Hcase. by apply propagate_absent.
    + destruct (decide (GetSchemaTypeName E d = "")).
      * by apply propagate_unnamed.
      * apply propagate_present.
        destruct (tm0 !! GetSchemaTypeName E d) eqn:Hd; [eauto|tauto].
  - intros N D fuel' Hfin Hfuel. by eapply processDerivedTypes_total.
Qed.

(** C9.  A root of Pass 3 that resolves to a type and is not a key of
    the map: the lookup of its adapter type inserts the root with the
    unknown type; every entry the walk adds maps to the unknown type,
    and each direct subtype with a name and no entry receives one.  On
    a finite type graph the walk of the root ends.  In the environment
    [tori] the finished prim map holds the unknown type, which is no
    discovered adapter. *)
Theorem unmapped_root_defaults_to_unknown
    (fuel : nat) (primTypeName : TfToken) (tm tm' : gmap string TfType)
    (log log' : list Diagnostic) :
  IsUnknown (GetTypeFromSchemaTypeName E primTypeName) = false →
  tm !! primTypeName = None →
  processRoot E fuel primTypeName tm log = Some (tm', log') →
  tm' !! primTypeName = Some TfUnknown
  ∧ (∀ k v, tm !! k = None → tm' !! k = Some v → v = TfUnknown)
  ∧ (∀ d, d ∈ GetDirectlyDerivedTypes E
                (GetTypeFromSchemaTypeName E primTypeName) →
          GetSchemaTypeName E d ≠ "" →
          tm !! GetSchemaTypeName E d = None →
          tm' !! GetSchemaTypeName E d = Some TfUnknown)
  ∧ (∀ N D fuel', FiniteGraph E N D → (D + D * size N ≤ fuel')%nat →
                  is_Some (processRoot E fuel' primTypeName tm log))
  ∧ ∃ st k,
      UsdImagingAdapterRegistry Examples.tori 10 = Some st
      ∧ _typeMap st !! k = Some TfUnknown
      ∧ TfUnknown ∉ GetAllDerivedTypes Examples.tori
                      (_adapterBaseType Examples.tori).
Proof.
  intros Hroot Habsent Hrun.
  destruct (processRoot_spec E _ _ _ _ _ _ Hrun) as [Hkeep Hnew].
  assert (∀ k v, tm !! k = None → tm' !! k = Some v → v = TfUnknown)
    as Hunknown.
  { intros k v Hk Hk'. destruct (Hnew k v Hk Hk') as (-> & _).
    by rewrite Habsent. }
  assert (∀ N D fuel', FiniteGraph E N D → (D + D * size N ≤ fuel')%nat →
                       is_Some (processRoot E fuel' primTypeName tm log))
    as Htotal.
  { intros N D fuel' Hfin Hfuel. by eapply processRoot_total. }
  unfold processRoot in Hrun. rewrite Hroot in Hrun.
  pose proof (subscript_self tm primTypeName) as Hself.
  pose proof (subscript_value tm primTypeName) as Hval.
  destruct (subscript tm primTypeName) as [a tm1]. simpl in *.
  rewrite Habsent in Hval. simpl in Hval. subst a.
  split; [|split; [done|split; [|split; [done|]]]].
  - by apply (propagate_spec _ _ _ _ _ _ _ _ _ Hrun).
  - intros d Hd Hnamed Hnone.
    destruct (propagate_covers _ _ _ _ _ _ _ _ Hrun d) as [v Hv];
      [by rewrite elem_of_reverse|done|].
    rewrite Hv. f_equal. by eapply Hunknown.
  - eexists _, "TorusTwo". split; [vm_compute; reflexivity|]. split.
    + vm_compute. reflexivity.
    + vm_compute. intros [[=]|[]%elem_of_nil]%elem_of_cons.
Qed.

End Shadowing.

(** ** The constructed registry *)

Lemma elem_of_keys (tm : gmap string TfType) k :
  k ∈ keys tm ↔ is_Some (tm !! k).
Proof.
  unfold keys. rewrite list_elem_of_fmap. split.
  - intros ([k' v] & -> & Hin). apply elem_of_map_to_list in Hin. eauto.
  - intros [v Hv]. exists (k, v). split; [done|].
    by apply elem_of_map_to_list.
Qed.

Section Constructed.
Variable E : Env.

Lemma constructor_stages fuel st :
  UsdImagingAdapterRegistry E fuel = Some st →
  ∃ tm log tm' log',
    _ProcessDerivedTypes E fuel
      (includeDerivedPrimTypes (afterFamilies E))
      (_typeMap (afterFamilies E)) (diagnostics (afterFamilies E))
    = Some (tm, log)
    ∧ _ProcessDerivedTypes E fuel
        (includeDerivedPrimTypes (afterAPIDiscovery E tm log))
        (_apiSchemaTypeMap (afterAPIDiscovery E tm log))
        (diagnostics (afterAPIDiscovery E tm log))
      = Some (tm', log')
    ∧ st = with_apiSchemaAdapterKeys (keys tm')
             (with_diagnostics log'
                (with_apiSchemaTypeMap tm' (afterAPIDiscovery E tm log))).
Proof.
  unfold UsdImagingAdapterRegistry.
  fold (afterPrimDiscovery E). fold (afterFamilies E).
  destruct (_ProcessDerivedTypes E fuel _ (_typeMap (afterFamilies E)) _)
    as [[tm log]|] eqn:Hprim; [|done].
  simpl. fold (beforeAPIDiscovery E tm log).
  fold (afterAPIDiscovery E tm log).
  destruct (_ProcessDerivedTypes E fuel _
              (_apiSchemaTypeMap (afterAPIDiscovery E tm log)) _)
    as [[tm' log']|] eqn:Hapi; [|done].
  intros [= <-]. by exists tm, log, tm', log'.
Qed.

(** The members of the finished registry in terms of the stages. *)
Lemma constructor_members fuel st :
  UsdImagingAdapterRegistry E fuel = Some st →
  ∃ tm log tm' log',
    _ProcessDerivedTypes E fuel
      (includeDerivedPrimTypes (afterFamilies E))
      (_typeMap (afterFamilies E)) (diagnostics (afterFamilies E))
    = Some (tm, log)
    ∧ _ProcessDerivedTypes E fuel
        (includeDerivedPrimTypes (afterAPIDiscovery E tm log))
        (_apiSchemaTypeMap (afterAPIDiscovery E tm log))
        (diagnostics (afterAPIDiscovery E tm log))
      = Some (tm', log')
    ∧ _typeMap st = tm
    ∧ _adapterKeys st = keys tm
    ∧ _apiSchemaTypeMap st = tm'
    ∧ _apiSchemaAdapterKeys st = keys tm'
    ∧ _keylessApiSchemaAdapterTypes st
      = _keylessApiSchemaAdapterTypes (afterAPIDiscovery E tm log).
Proof.
  intros (tm & log & tm' & log' & Hprim & Hapi & ->)%constructor_stages.
  exists tm, log, tm', log'. repeat split; try done; simpl.
  - unfold afterAPIDiscovery. by rewrite (proj1 (apiLoop_frame E _ _)).
  - unfold afterAPIDiscovery. by rewrite (proj2 (apiLoop_frame E _ _)).
Qed.

(** Entries of the prim map after discovery survive Pass 2 and Pass 3. *)
Lemma constructor_keeps_discovered fuel st k v :
  UsdImagingAdapterRegistry E fuel = Some st →
  _typeMap (afterPrimDiscovery E) !! k = Some v →
  _typeMap st !! k = Some v.
Proof.
  intros (tm & log & tm' & log' & Hprim & _ & -> & _)%constructor_members Hk.
  eapply processDerivedTypes_preserves; [exact Hprim|].
  by apply familyLoop_preserves.
Qed.

Lemma primLoop_covers types st t metadata s :
  t ∈ types → discovered PrimFamily E t metadata s →
  is_Some (_typeMap (foldl (primStep E) st types) !! s).
Proof.
  intros (l1 & l2 & ->)%list_elem_of_split Hdisc.
  rewrite foldl_app. simpl. apply primLoop_keys.
  rewrite (primStep_discovered E _ t metadata s Hdisc), primRecord_typeMap.
  rewrite lookup_insert_eq. eauto.
Qed.

End Constructed.

(** ** Empty names *)

Section EmptyNames.
Variable E : Env.

Lemma primRecord_no_name_error t metadata s st :
  ∃ new, issued st (primRecord t metadata s st) new
         ∧ ∀ d, d ∈ new → isNameError d = false.
Proof.
  unfold primRecord, issued. simpl.
  destruct (_typeMap st !! s); simpl;
    destruct (metadata !! "includeDerivedPrimTypes") as [[|[]| |]|]; simpl;
    destruct (metadata !! "includeSchemaFamily") as [[|[]| |]|]; simpl;
    rewrite <- ?app_assoc; (eexists; split; [reflexivity|]);
    simpl; intros d Hd;
    repeat (apply elem_of_cons in Hd as [->|Hd]; [done|]);
    by apply elem_of_nil in Hd.
Qed.

Lemma apiRecord_keyless t metadata st :
  _keylessApiSchemaAdapterTypes (apiRecord t metadata "" st)
  = _keylessApiSchemaAdapterTypes st ++ [t]
  ∧ _apiSchemaTypeMap (apiRecord t metadata "" st) = _apiSchemaTypeMap st.
Proof. done. Qed.

Lemma apiStep_keyless_mono st t x :
  x ∈ _keylessApiSchemaAdapterTypes st →
  x ∈ _keylessApiSchemaAdapterTypes (apiStep E st t).
Proof.
  intros Hx. unfold apiStep.
  destruct (GetPluginForType E t) as [plugin|]; [|done].
  destruct (isEnabled E _) as [[]|]; try done.
  destruct (_ !! "apiSchemaName") as [[| | |s]|]; try done.
  unfold apiRecord. destruct (decide (s = "")); simpl.
  - apply elem_of_app. by left.
  - by destruct (_ !! "includeDerivedPrimTypes") as [[|[]| |]|].
Qed.

Lemma apiLoop_keyless types st t metadata :
  t ∈ types → discovered APISchemaFamily E t metadata "" →
  t ∈ _keylessApiSchemaAdapterTypes (foldl (apiStep E) st types).
Proof.
  intros (l1 & l2 & ->)%list_elem_of_split Hdisc.
  rewrite foldl_app. simpl.
  generalize (foldl (apiStep E) st l1). intros st1.
  assert (t ∈ _keylessApiSchemaAdapterTypes (apiStep E st1 t)) as Hin.
  { rewrite (apiStep_discovered E st1 t metadata "" Hdisc).
    rewrite (proj1 (apiRecord_keyless t metadata st1)).
    apply elem_of_app. right. apply list_elem_of_here. }
  revert Hin. generalize (apiStep E st1 t). clear st1.
  induction l2 as [|t' l2 IH]; intros st1 Hin; [done|].
  simpl. by apply IH, apiStep_keyless_mono.
Qed.

(** C10.  A prim adapter that is discovered with the empty string as
    its [primTypeName]: the step maps the empty name to it, leaves the
    keyless list alone and issues neither of the two name errors; when
    the adapter is among the prim adapter types, the empty name is a key
    of the finished registry, and on a finite type graph the
    constructor does finish.  An API schema adapter discovered with the
    empty name goes to the keyless list instead and leaves its map
    alone. *)
Theorem empty_prim_name_is_a_key
    (fuel : nat) (st0 : State) (t : TfType)
    (metadata : gmap string JsValue) :
  discovered PrimFamily E t metadata "" →
  _typeMap (primStep E st0 t) !! "" = Some t
  ∧ _keylessApiSchemaAdapterTypes (primStep E st0 t)
    = _keylessApiSchemaAdapterTypes st0
  ∧ (∃ new, issued st0 (primStep E st0 t) new
            ∧ ∀ d, d ∈ new → isNameError d = false)
  ∧ (∀ st, t ∈ GetAllDerivedTypes E (_adapterBaseType E) →
           UsdImagingAdapterRegistry E fuel = Some st →
           "" ∈ GetAdapterKeys st ∧ HasAdapter E st "" = true)
  ∧ (∀ N D, FiniteGraph E N D → (D + D * size N ≤ fuel)%nat →
            is_Some (UsdImagingAdapterRegistry E fuel))
  ∧ (∀ t' metadata',
       discovered APISchemaFamily E t' metadata' "" →
       _keylessApiSchemaAdapterTypes (apiStep E st0 t')
       = _keylessApiSchemaAdapterTypes st0 ++ [t']
       ∧ _apiSchemaTypeMap (apiStep E st0 t') = _apiSchemaTypeMap st0).
Proof.
  intros Hdisc. split; [|split; [|split; [|split; [|split]]]].
  - rewrite (primStep_discovered E st0 t metadata "" Hdisc).
    rewrite primRecord_typeMap. apply lookup_insert_eq.
  - apply primStep_frame.
  - rewrite (primStep_discovered E st0 t metadata "" Hdisc).
    apply primRecord_no_name_error.
  - intros st Hin Hctor.
    destruct (primLoop_covers E _ initial t metadata "" Hin Hdisc)
      as [v Hv].
    pose proof (constructor_keeps_discovered E fuel st "" v Hctor Hv) as Hst.
    split.
    + apply constructor_members in Hctor
        as (tm & log & tm' & log' & _ & _ & Htm & Hkeys & _).
      unfold GetAdapterKeys. rewrite Hkeys, elem_of_keys, <- Htm. eauto.
    + unfold HasAdapter. case_decide; [done|].
      apply bool_decide_eq_true. eauto.
  - intros N D Hfin Hfuel. by eapply UsdImagingAdapterRegistry_total.
  - intros t' metadata' Hdisc'.
    by rewrite (apiStep_discovered E st0 t' metadata' "" Hdisc').
Qed.

End EmptyNames.

(** ** Keyless API schema adapters *)

Section Keyless.
Variable E : Env.

(** While the API schema adapters are discovered, no key of their map
    is empty, no entry holds a keyless adapter [t0], and every recorded
    root is a key. *)
Lemma apiStep_invariant t0 plugin0 st t :
  GetPluginForType E t0 = Some plugin0 →
  GetMetadataForType plugin0 t0 !! "apiSchemaName" = Some (JsString "") →
  (∀ k v, _apiSchemaTypeMap st !! k = Some v → k ≠ "" ∧ v ≠ t0) →
  (∀ r, r ∈ includeDerivedPrimTypes st →
        is_Some (_apiSchemaTypeMap st !! r)) →
  (∀ k v, _apiSchemaTypeMap (apiStep E st t) !! k = Some v →
          k ≠ "" ∧ v ≠ t0)
  ∧ (∀ r, r ∈ includeDerivedPrimTypes (apiStep E st t) →
          is_Some (_apiSchemaTypeMap (apiStep E st t) !! r)).
Proof.
  intros Hp0 Hname0 Hmap Hroots. unfold apiStep.
  destruct (GetPluginForType E t) as [plugin|] eqn:Hp; [|done].
  destruct (isEnabled E _) as [[]|]; try done.
  destruct (GetMetadataForType plugin t !! "apiSchemaName")
    as [[| | |s]|] eqn:Hname; try done.
  unfold apiRecord. destruct (decide (s = "")) as [->|Hs]; [done|].
  assert (t ≠ t0) as Hne.
  { intros ->. rewrite Hp0 in Hp. injection Hp as ->. congruence. }
  assert (∀ k v, (<[s := t]> (_apiSchemaTypeMap st)) !! k = Some v →
                 k ≠ "" ∧ v ≠ t0) as Hmap'.
  { intros k v. destruct (decide (k = s)) as [->|].
    - rewrite lookup_insert_eq. intros [= <-]. done.
    - rewrite lookup_insert_ne by done. apply Hmap. }
  assert (∀ r, r ∈ includeDerivedPrimTypes st →
               is_Some ((<[s := t]> (_apiSchemaTypeMap st)) !! r))
    as Hroots'.
  { intros r Hr. destruct (decide (r = s)) as [->|].
    - rewrite lookup_insert_eq. eauto.
    - rewrite lookup_insert_ne by done. by apply Hroots. }
  destruct (GetMetadataForType plugin t !! "includeDerivedPrimTypes")
    as [[|[]| |]|]; simpl; (split; [done|]); try done.
  intros r [Hr|Hr]%elem_of_app; [by apply Hroots'|].
  apply list_elem_of_singleton in Hr as ->.
  rewrite lookup_insert_eq. eauto.
Qed.

Lemma apiLoop_invariant t0 plugin0 types st :
  GetPluginForType E t0 = Some plugin0 →
  GetMetadataForType plugin0 t0 !! "apiSchemaName" = Some (JsString "") →
  (∀ k v, _apiSchemaTypeMap st !! k = Some v → k ≠ "" ∧ v ≠ t0) →
  (∀ r, r ∈ includeDerivedPrimTypes st →
        is_Some (_apiSchemaTypeMap st !! r)) →
  (∀ k v, _apiSchemaTypeMap (foldl (apiStep E) st types) !! k = Some v →
          k ≠ "" ∧ v ≠ t0)
  ∧ (∀ r, r ∈ includeDerivedPrimTypes (foldl (apiStep E) st types) →
          is_Some (_apiSchemaTypeMap (foldl (apiStep E) st types) !! r)).
Proof.
  intros Hp0 Hname0. revert st.
  induction types as [|t types IH]; intros st Hmap Hroots; [done|].
  simpl.
  destruct (apiStep_invariant t0 plugin0 st t Hp0 Hname0 Hmap Hroots).
  by apply IH.
Qed.

Lemma beforeAPIDiscovery_empty tm log :
  _apiSchemaTypeMap (beforeAPIDiscovery E tm log) = ∅
  ∧ includeDerivedPrimTypes (beforeAPIDiscovery E tm log) = [].
Proof.
  split; [|done]. unfold beforeAPIDiscovery, afterFamilies. simpl.
  rewrite (proj1 (familyLoop_frame E _ _)).
  unfold afterPrimDiscovery. by rewrite (proj1 (primLoop_frame E _ _)).
Qed.

(** The finished API schema map has no empty key and no keyless
    adapter behind a key. *)
Lemma constructor_api_entries fuel st t0 plugin0 k v :
  UsdImagingAdapterRegistry E fuel = Some st →
  GetPluginForType E t0 = Some plugin0 →
  GetMetadataForType plugin0 t0 !! "apiSchemaName" = Some (JsString "") →
  _apiSchemaTypeMap st !! k = Some v → k ≠ "" ∧ v ≠ t0.
Proof.
  intros (tm & log & tm' & log' & _ & Hapi & _ & _ & -> & _)
    %constructor_members Hp0 Hname0 Hk.
  destruct (beforeAPIDiscovery_empty tm log) as [Hempty Hnil].
  destruct (apiLoop_invariant t0 plugin0
              (GetAllDerivedTypes E (_apiSchemaAdapterBaseType E))
              (beforeAPIDiscovery E tm log) Hp0 Hname0) as [Hmap Hroots].
  { intros k' v'. by rewrite Hempty, lookup_empty. }
  { intros r. rewrite Hnil. by intros ?%elem_of_nil. }
  fold (afterAPIDiscovery E tm log) in Hmap, Hroots.
  destruct (_apiSchemaTypeMap (afterAPIDiscovery E tm log) !! k)
    as [x|] eqn:Hx.
  - pose proof (processDerivedTypes_preserves E _ _ _ _ _ _ _ _ Hapi Hx).
    assert (x = v) as -> by congruence. by apply Hmap.
  - destruct (processDerivedTypes_rooted E _ _ _ _ _ _ Hapi Hroots k v Hx Hk)
      as (? & k0 & Hk0).
    split; [done|]. by apply (Hmap k0 v).
Qed.

(** The keyless loop collects the instances of the calls that succeed
    and the diagnostics of all the calls, and nothing else. *)
Lemma keylessLoop_spec types acc :
  foldl (keylessStep E) acc types
  = (acc.1 ++ omap (λ ty, (_ConstructAdapter_byType
                             (GetAPISchemaAdapterFactory E) E "" ty).1)
                types,
     acc.2 ++ concat ((λ ty, (_ConstructAdapter_byType
                                (GetAPISchemaAdapterFactory E) E "" ty).2)
                      <$> types)).
Proof.
  revert acc. induction types as [|ty types IH]; intros [result log].
  - simpl. by rewrite !app_nil_r.
  - simpl. rewrite IH. unfold keylessStep.
    destruct (_ConstructAdapter_byType _ E "" ty) as [[instance|] d];
      simpl; by rewrite <- ?app_assoc.
Qed.

(** C8.  An API schema adapter that is discovered with the empty
    string as its [apiSchemaName]: in the finished registry it is in the
    keyless list; no key of [GetAPISchemaAdapterKeys] is empty or maps
    to it, and no entry of the API schema map holds it.
    [ConstructKeylessAPISchemaAdapters] calls the construction by type
    once per keyless entry, returns the instances of the calls that
    succeeded, in order, and issues the diagnostics of those calls and
    no other.  On a finite type graph the constructor does finish. *)
Theorem keyless_adapters_are_isolated
    (fuel : nat) (st : State) (t : TfType)
    (metadata : gmap string JsValue) :
  discovered APISchemaFamily E t metadata "" →
  t ∈ GetAllDerivedTypes E (_apiSchemaAdapterBaseType E) →
  UsdImagingAdapterRegistry E fuel = Some st →
  t ∈ _keylessApiSchemaAdapterTypes st
  ∧ (∀ k, k ∈ GetAPISchemaAdapterKeys st →
          k ≠ "" ∧ ∃ v, _apiSchemaTypeMap st !! k = Some v ∧ v ≠ t)
  ∧ (∀ k, _apiSchemaTypeMap st !! k ≠ Some t)
  ∧ ConstructKeylessAPISchemaAdapters E st
    = (omap (λ ty, (_ConstructAdapter_byType
                      (GetAPISchemaAdapterFactory E) E "" ty).1)
         (_keylessApiSchemaAdapterTypes st),
       concat ((λ ty, (_ConstructAdapter_byType
                         (GetAPISchemaAdapterFactory E) E "" ty).2)
               <$> _keylessApiSchemaAdapterTypes st))
  ∧ (∀ N D fuel', FiniteGraph E N D → (D + D * size N ≤ fuel')%nat →
                  is_Some (UsdImagingAdapterRegistry E fuel')).
Proof.
  intros Hdisc Hin Hctor.
  destruct Hdisc as [(plugin & Hp & Hm) (He & Hname)].
  simpl in Hname. rewrite <- Hm in Hname.
  pose proof (constructor_api_entries fuel st t plugin) as Hentries.
  split; [|split; [|split; [|split]]].
  - apply constructor_members in Hctor
      as (tm & log & tm' & log' & _ & _ & _ & _ & _ & _ & ->).
    unfold afterAPIDiscovery. eapply apiLoop_keyless; [done|].
    repeat split; [by exists plugin|done|by rewrite Hm in Hname].
  - intros k Hk.
    assert (is_Some (_apiSchemaTypeMap st !! k)) as [v Hv].
    { apply constructor_members in Hctor
        as (tm & log & tm' & log' & _ & _ & _ & _ & Htm' & Hkeys & _).
      unfold GetAPISchemaAdapterKeys in Hk.
      rewrite Hkeys, elem_of_keys in Hk. by rewrite Htm'. }
    destruct (Hentries k v Hctor Hp Hname Hv). eauto.
  - intros k Hk. by destruct (Hentries k t Hctor Hp Hname Hk).
  - unfold ConstructKeylessAPISchemaAdapters. by rewrite keylessLoop_spec.
  - intros N D fuel' Hfin Hfuel. by eapply UsdImagingAdapterRegistry_total.
Qed.

End Keyless.

(** ** Families are a prim adapter feature *)

Section FamilyOptIn.
Variable E : Env.

Lemma primRecord_records_family t metadata s includeDerived st :
  optIn metadata "includeDerivedPrimTypes" = Some includeDerived →
  metadata !! "includeSchemaFamily" = Some (JsBool true) →
  includeSchemaFamilies (primRecord t metadata s st)
  = includeSchemaFamilies st ++ [(s, includeDerived)].
Proof.
  unfold optIn, primRecord. intros Hderived ->.
  destruct (metadata !! "includeDerivedPrimTypes") as [[|[]| |]|];
    try done; injection Hderived as <-;
    by destruct (_typeMap (emit (DiscoveredPrim t s) st) !! s).
Qed.

Lemma apiRecord_ignores_family t (metadata : gmap string JsValue) s st v :
  apiRecord t (<["includeSchemaFamily" := v]> metadata) s st
  = apiRecord t metadata s st.
Proof. unfold apiRecord. by rewrite lookup_insert_ne. Qed.

(** C2 (as amended).  Schema families are handled for prim adapters
    only.  A prim adapter that declares its name and
    [includeSchemaFamily = true], with a well-formed derived opt-in, has
    the pair of its name and that opt-in recorded; when Pass 2
    processes the pair, every schema of the family that is not yet a
    key of the prim map becomes one, mapped to the adapter type the map
    holds for the family name, which right after the adapter's own
    step is the adapter itself.  For API schema adapters the
    [includeSchemaFamily] entry is never read, no pair is recorded, and
    Pass 2 leaves the API schema map alone. *)
Theorem family_propagation_is_prim_only
    (st : State) (t : TfType) (metadata : gmap string JsValue)
    (s : TfToken) (includeDerived : bool) :
  declares PrimFamily E t metadata s →
  optIn metadata "includeDerivedPrimTypes" = Some includeDerived →
  metadata !! "includeSchemaFamily" = Some (JsBool true) →
  includeSchemaFamilies (primStep E st t)
  = includeSchemaFamilies st ++ [(s, includeDerived)]
  ∧ (∀ st2 schemaInfo,
       schemaInfo ∈ FindSchemaInfosInFamily E s →
       _typeMap st2 !! identifier schemaInfo = None →
       _typeMap (familyStep E st2 (s, includeDerived))
         !! identifier schemaInfo
       = Some (default TfUnknown (_typeMap st2 !! s)))
  ∧ (∀ schemaInfo,
       schemaInfo ∈ FindSchemaInfosInFamily E s →
       _typeMap (primStep E st t) !! identifier schemaInfo = None →
       _typeMap (familyStep E (primStep E st t) (s, includeDerived))
         !! identifier schemaInfo
       = Some t)
  ∧ (∀ t' metadata' s' st' v,
       apiRecord t' (<["includeSchemaFamily" := v]> metadata') s' st'
       = apiRecord t' metadata' s' st')
  ∧ (∀ st' t',
       includeSchemaFamilies (apiStep E st' t') = includeSchemaFamilies st')
  ∧ (∀ st' pair,
       _apiSchemaTypeMap (familyStep E st' pair) = _apiSchemaTypeMap st').
Proof.
  intros [Hdisc _] Hderived Hfamily.
  assert (∀ st2 schemaInfo,
       schemaInfo ∈ FindSchemaInfosInFamily E s →
       _typeMap st2 !! identifier schemaInfo = None →
       _typeMap (familyStep E st2 (s, includeDerived))
         !! identifier schemaInfo
       = Some (default TfUnknown (_typeMap st2 !! s))) as Hpass2.
  { intros st2 si Hsi Hnone. rewrite familyStep_lookup, Hnone. simpl.
    rewrite decide_True; [done|]. right. by apply list_elem_of_fmap_2. }
  split; [|split; [done|split; [|split; [|split]]]].
  - rewrite (primStep_discovered E st t metadata s Hdisc).
    by apply primRecord_records_family.
  - intros si Hsi Hnone. rewrite Hpass2 by done.
    rewrite (primStep_discovered E st t metadata s Hdisc).
    by rewrite primRecord_typeMap, lookup_insert_eq.
  - intros. apply apiRecord_ignores_family.
  - intros st' t'. apply apiStep_frame.
  - intros st' pair. apply familyStep_frame.
Qed.

End FamilyOptIn.

(** ** The facade *)

Section Facade.
Variable E : Env.

(** C6.  The reserved key [instanceAdapterKey]: [HasAdapter] answers
    true in every state of the registry, the one with an empty prim map
    included, and [ConstructAdapter] returns the built-in
    [UsdImagingInstanceAdapter] without any diagnostic, whatever the
    prim map and the factories hold. *)
Theorem instance_adapter_key_is_builtin (st : State) :
  HasAdapter E st (instanceAdapterKey E) = true
  ∧ HasAdapter E initial (instanceAdapterKey E) = true
  ∧ _typeMap initial = ∅
  ∧ ConstructAdapter E st (instanceAdapterKey E)
    = (Some UsdImagingInstanceAdapter, []).
Proof.
  unfold HasAdapter, ConstructAdapter. by rewrite !decide_True.
Qed.

(** The four ways through the construction by type. *)
Lemma construct_by_type_cases
    {T : Type} (GetFactory : TfType → option (Factory T))
    (adapterKey : TfToken) (adapterType : TfType) :
  _ConstructAdapter_byType GetFactory E adapterKey adapterType
  = if activated E adapterType then
      match GetFactory adapterType with
      | None => (None, [CannotManufacture adapterType adapterKey])
      | Some factory =>
          match New factory with
          | None => (None, [FailedToInstantiate adapterType adapterKey])
          | Some instance => (Some instance, [Loaded adapterKey adapterType])
          end
      end
    else (None, [PluginLoadFailed adapterType]).
Proof.
  unfold activated, _ConstructAdapter_byType.
  destruct (GetPluginForType E adapterType) as [plugin|]; [|done].
  by destruct (Load plugin).
Qed.

(** C7.  Construction by type, for any adapter family [T] with its
    factory lookup: the result is empty exactly when the activation of
    the plugin fails, the factory is absent, or the factory yields no
    instance; each of the three issues its own single coding error;
    otherwise the result is the instance the factory made, with a
    debug message only. *)
Theorem construct_by_type_outcomes
    {T : Type} (GetFactory : TfType → option (Factory T))
    (adapterKey : TfToken) (adapterType : TfType) :
  let result := _ConstructAdapter_byType GetFactory E adapterKey adapterType in
  (result.1 = None ↔
     activated E adapterType = false
     ∨ GetFactory adapterType = None
     ∨ ∃ factory, GetFactory adapterType = Some factory
                  ∧ New factory = None)
  ∧ (activated E adapterType = false →
     result = (None, [PluginLoadFailed adapterType]))
  ∧ (activated E adapterType = true → GetFactory adapterType = None →
     result = (None, [CannotManufacture adapterType adapterKey]))
  ∧ (∀ factory, activated E adapterType = true →
       GetFactory adapterType = Some factory → New factory = None →
       result = (None, [FailedToInstantiate adapterType adapterKey]))
  ∧ (∀ factory instance, activated E adapterType = true →
       GetFactory adapterType = Some factory →
       New factory = Some instance →
       result = (Some instance, [Loaded adapterKey adapterType]))
  ∧ (result.1 = None →
     ∃ d, result.2 = [d] ∧ severity d = CodingError)
  ∧ (is_Some result.1 → ∀ d, d ∈ result.2 → severity d = Debug).
Proof.
  intros result. subst result. rewrite construct_by_type_cases.
  destruct (activated E adapterType).
  - destruct (GetFactory adapterType) as [[[instance|]]|]; simpl.
    + repeat split; try naive_solver.
      intros _ d ->%list_elem_of_singleton. done.
    + repeat split; try naive_solver.
    + repeat split; try naive_solver.
  - repeat split; try naive_solver.
Qed.

End Facade.

(** ** What a candidate contributes *)

Section Candidates.
Variable E : Env.

Lemma candidateName_discovered f t s :
  candidateName f E t = Some s ↔ ∃ metadata, discovered f E t metadata s.
Proof.
  unfold candidateName, discovered. split.
  - destruct (GetPluginForType E t) as [plugin|]; [|done].
    destruct (isEnabled E (GetMetadataForType plugin t)) as [[]|] eqn:He;
      try done.
    destruct (GetMetadataForType plugin t !! nameField f) as [[| | |s']|]
      eqn:Hn; try done.
    intros [= ->]. exists (GetMetadataForType plugin t). eauto.
  - intros (metadata & (plugin & -> & <-) & -> & ->). done.
Qed.

Lemma writtenName_declares f t s :
  writtenName f E t = Some s ↔ ∃ metadata, declares f E t metadata s.
Proof.
  unfold writtenName, declares. split.
  - destruct (candidateName f E t) as [s'|] eqn:Hc; [|done].
    apply candidateName_discovered in Hc as [metadata Hd].
    destruct f.
    + intros [= ->]. exists metadata. done.
    + case_decide; [done|]. intros [= ->]. exists metadata. done.
  - intros (metadata & Hd & Hs).
    assert (candidateName f E t = Some s) as ->
      by (apply candidateName_discovered; eauto).
    destruct f; [done|]. rewrite decide_False; [done|]. by apply Hs.
Qed.

(** A skipped candidate adds one diagnostic and changes nothing else. *)
Lemma discoverStep_skipped f st t :
  candidateName f E t = None →
  ∃ d, discoverStep f E st t = emit d st
       ∧ (severity d = Debug ∨ severity d = RuntimeError)
       ∧ (severity d = Debug ↔
            GetPluginForType E t = None
            ∨ ∃ plugin, GetPluginForType E t = Some plugin
                        ∧ isEnabled E (GetMetadataForType plugin t)
                          = Some false).
Proof.
  unfold candidateName.
  destruct f; simpl; unfold primStep, apiStep;
    (destruct (GetPluginForType E t) as [plugin|];
     [|intros _; eexists; split; [done|]; split; [by left|];
       split; [by left|done]]);
    (destruct (isEnabled E (GetMetadataForType plugin t)) as [[]|] eqn:He;
     [|intros _; eexists; split; [done|]; split; [by left|];
       split; [right; eauto|done]
      |intros _; eexists; split; [done|]; split; [by right|];
       split; [done|intros [?|(? & ? & ?)]; simplify_eq]]);
    match goal with
    | |- context [GetMetadataForType plugin t !! ?key] =>
        destruct (GetMetadataForType plugin t !! key) as [[| | |s]|]
    end;
    try done;
    intros _; eexists; (split; [done|]); (split; [by right|]);
    (split; [done|intros [?|(? & ? & ?)]; simplify_eq]).
Qed.

(** The map of the family after one step of its loop. *)
Lemma discoverStep_familyMap f st t :
  familyMap f (discoverStep f E st t)
  = match writtenName f E t with
    | Some s => <[s := t]> (familyMap f st)
    | None => familyMap f st
    end.
Proof.
  destruct (candidateName f E t) as [s|] eqn:Hc.
  - unfold writtenName. rewrite Hc.
    apply candidateName_discovered in Hc as [metadata Hd].
    destruct f; simpl.
    + rewrite (primStep_discovered E st t metadata s Hd).
      apply primRecord_typeMap.
    + rewrite (apiStep_discovered E st t metadata s Hd).
      destruct (decide (s = "")) as [->|Hs]; [done|].
      by apply apiRecord_typeMap.
  - unfold writtenName. rewrite Hc.
    destruct (discoverStep_skipped f st t Hc) as (d & -> & _).
    by destruct f.
Qed.

(** The map of the family after the loop: a name maps to the last
    candidate that wrote it, and otherwise to what it mapped to before. *)
Lemma discoverLoop_lookup f types st s :
  familyMap f (foldl (discoverStep f E) st types) !! s
  = match last (filter (λ t, writtenName f E t = Some s) types) with
    | Some t => Some t
    | None => familyMap f st !! s
    end.
Proof.
  revert st. induction types as [|t types IH]; intros st; [done|].
  simpl. rewrite IH, filter_cons, discoverStep_familyMap.
  destruct (decide (writtenName f E t = Some s)) as [Hw|Hw].
  - rewrite last_cons, Hw, lookup_insert_eq.
    by destruct (last (filter _ types)).
  - destruct (last (filter _ types)); [done|].
    destruct (writtenName f E t) as [s'|]; [|done].
    rewrite lookup_insert_ne; [done|]. congruence.
Qed.

End Candidates.

(** ** Where the entries come from *)

Section Provenance.
Variable E : Env.

Lemma candidates_prim :
  afterPrimDiscovery E
  = foldl (discoverStep PrimFamily E) initial (candidates PrimFamily E).
Proof. done. Qed.

Lemma candidates_api tm log :
  afterAPIDiscovery E tm log
  = foldl (discoverStep APISchemaFamily E) (beforeAPIDiscovery E tm log)
      (candidates APISchemaFamily E).
Proof. done. Qed.

(** The names a step records are names it has just written. *)
Lemma discoverStep_roots f st t r :
  r ∈ includeDerivedPrimTypes (discoverStep f E st t) →
  r ∈ includeDerivedPrimTypes st ∨ writtenName f E t = Some r.
Proof.
  destruct (candidateName f E t) as [s|] eqn:Hc.
  - unfold writtenName. rewrite Hc.
    apply candidateName_discovered in Hc as [metadata Hd].
    destruct f; simpl.
    + rewrite (primStep_discovered E st t metadata s Hd). unfold primRecord.
      destruct (_typeMap (emit (DiscoveredPrim t s) st) !! s); simpl;
        destruct (metadata !! "includeDerivedPrimTypes") as [[|[]| |]|];
        simpl;
        destruct (metadata !! "includeSchemaFamily") as [[|[]| |]|]; simpl;
        try (by left);
        (intros [?|Hs]%elem_of_app; [by left|];
         apply list_elem_of_singleton in Hs as ->; by right).
    + rewrite (apiStep_discovered E st t metadata s Hd). unfold apiRecord.
      destruct (decide (s = "")); [by left|]. simpl.
      destruct (metadata !! "includeDerivedPrimTypes") as [[|[]| |]|];
        simpl; try (by left).
      intros [?|Hs]%elem_of_app; [by left|].
      apply list_elem_of_singleton in Hs as ->. by right.
  - destruct (discoverStep_skipped E f st t Hc) as (d & -> & _). by left.
Qed.

Lemma discoverStep_families f st t pair :
  pair ∈ includeSchemaFamilies (discoverStep f E st t) →
  pair ∈ includeSchemaFamilies st
  ∨ f = PrimFamily ∧ writtenName PrimFamily E t = Some pair.1.
Proof.
  destruct (candidateName f E t) as [s|] eqn:Hc.
  - pose proof Hc as Hname.
    apply candidateName_discovered in Hc as [metadata Hd].
    destruct f; simpl.
    + unfold writtenName. rewrite Hname.
      rewrite (primStep_discovered E st t metadata s Hd). unfold primRecord.
      destruct (_typeMap (emit (DiscoveredPrim t s) st) !! s); simpl;
        destruct (metadata !! "includeDerivedPrimTypes") as [[|[]| |]|];
        simpl;
        destruct (metadata !! "includeSchemaFamily") as [[|[]| |]|]; simpl;
        try (by left);
        (intros [?|Hs]%elem_of_app; [by left|];
         apply list_elem_of_singleton in Hs as ->; by right).
    + rewrite (proj1 (proj2 (apiStep_frame E st t))). by left.
  - destruct (discoverStep_skipped E f st t Hc) as (d & -> & _). by left.
Qed.

(** During discovery every recorded root is a key of the family's
    map. *)
Lemma discoverLoop_roots f types st :
  (∀ r, r ∈ includeDerivedPrimTypes st → is_Some (familyMap f st !! r)) →
  ∀ r, r ∈ includeDerivedPrimTypes (foldl (discoverStep f E) st types) →
       is_Some (familyMap f (foldl (discoverStep f E) st types) !! r).
Proof.
  revert st. induction types as [|t types IH]; intros st Hroots; [done|].
  simpl. apply IH. intros r Hr. rewrite discoverStep_familyMap.
  apply discoverStep_roots in Hr as [Hr|Hw].
  - apply Hroots in Hr. destruct (writtenName f E t) as [s|]; [|done].
    destruct (decide (s = r)) as [->|]; [rewrite lookup_insert_eq; eauto|].
    by rewrite lookup_insert_ne.
  - rewrite Hw, lookup_insert_eq. eauto.
Qed.

(** During the discovery of the prim adapters every recorded family
    name is a key of the prim map. *)
Lemma primLoop_families types st :
  (∀ pair, pair ∈ includeSchemaFamilies st →
           is_Some (_typeMap st !! pair.1)) →
  ∀ pair, pair ∈ includeSchemaFamilies (foldl (primStep E) st types) →
          is_Some (_typeMap (foldl (primStep E) st types) !! pair.1).
Proof.
  revert st. induction types as [|t types IH]; intros st Hfam; [done|].
  simpl. apply IH. intros pair Hp.
  apply (discoverStep_families PrimFamily) in Hp as [Hp|[_ Hw]].
  - by apply primStep_keys, Hfam.
  - pose proof (discoverStep_familyMap E PrimFamily st t) as Hmap.
    simpl in *. rewrite Hmap, Hw, lookup_insert_eq. eauto.
Qed.

(** An entry of a map that discovery started empty belongs to a
    candidate that wrote its key. *)
Lemma discoverLoop_values f types st k v :
  familyMap f st = ∅ →
  familyMap f (foldl (discoverStep f E) st types) !! k = Some v →
  v ∈ types ∧ writtenName f E v = Some k.
Proof.
  intros Hempty. rewrite discoverLoop_lookup, Hempty, lookup_empty.
  destruct (last (filter _ types)) as [t|] eqn:Hlast; [|done].
  intros [= ->]. apply last_Some_elem_of, list_elem_of_filter in Hlast.
  by destruct Hlast.
Qed.

(** Pass 2 and Pass 3 bring no adapter type into the map that was not in
    it, the unknown type apart. *)
Lemma familyLoop_values (P : TfType → Prop) pairs st :
  P TfUnknown →
  (∀ k v, _typeMap st !! k = Some v → P v) →
  ∀ k v, _typeMap (foldl (familyStep E) st pairs) !! k = Some v → P v.
Proof.
  intros Hunknown. revert st.
  induction pairs as [|pair pairs IH]; intros st Hst; [done|].
  simpl. apply IH. intros k v. rewrite familyStep_lookup.
  destruct (_typeMap st !! k) as [x|] eqn:Hk.
  - intros [= <-]. eauto.
  - case_decide; [|done]. intros [= <-].
    destruct (_typeMap st !! pair.1) eqn:Hp; simpl; eauto.
Qed.

Lemma processDerivedTypes_values (P : TfType → Prop) fuel roots
    (tm : gmap string TfType) log tm' log' :
  P TfUnknown →
  (∀ k v, tm !! k = Some v → P v) →
  _ProcessDerivedTypes E fuel roots tm log = Some (tm', log') →
  ∀ k v, tm' !! k = Some v → P v.
Proof.
  intros Hunknown. revert tm log.
  induction roots as [|r roots IH]; intros tm log Htm; simpl.
  - intros [= <- <-]. done.
  - destruct (processRoot E fuel r tm log) as [[tm1 log1]|] eqn:Hroot;
      [|done].
    apply IH. intros k v Hk.
    destruct (processRoot_spec E _ _ _ _ _ _ Hroot) as [Hkeep Hnew].
    destruct (tm !! k) as [x|] eqn:Hx.
    + apply Hkeep in Hx as Hx'. assert (x = v) as -> by congruence. eauto.
    + destruct (Hnew k v Hx Hk) as (-> & _).
      destruct (tm !! r) eqn:Hr; simpl; eauto.
Qed.

(** The entries of the finished prim map. *)
Lemma constructor_prim_values fuel st k v :
  UsdImagingAdapterRegistry E fuel = Some st →
  _typeMap st !! k = Some v →
  v = TfUnknown
  ∨ v ∈ candidates PrimFamily E ∧ is_Some (writtenName PrimFamily E v).
Proof.
  intros (tm & log & tm' & log' & Hprim & _ & -> & _)%constructor_members Hk.
  eapply (processDerivedTypes_values
            (λ v, v = TfUnknown
                  ∨ v ∈ candidates PrimFamily E
                    ∧ is_Some (writtenName PrimFamily E v)));
    [by left| |exact Hprim|exact Hk].
  unfold afterFamilies. apply familyLoop_values; [by left|].
  intros k' v' Hk'. right. rewrite candidates_prim in Hk'.
  apply (discoverLoop_values PrimFamily) in Hk' as [? Hw]; [|done].
  split; [done|]. rewrite Hw. eauto.
Qed.

(** The entries of the finished API schema map. *)
Lemma constructor_api_values fuel st k v :
  UsdImagingAdapterRegistry E fuel = Some st →
  _apiSchemaTypeMap st !! k = Some v →
  k ≠ ""
  ∧ v ∈ candidates APISchemaFamily E
  ∧ ∃ s, s ≠ "" ∧ writtenName APISchemaFamily E v = Some s.
Proof.
  intros (tm & log & tm' & log' & _ & Hapi & _ & _ & -> & _)
    %constructor_members Hk.
  destruct (beforeAPIDiscovery_empty E tm log) as [Hempty Hnil].
  rewrite candidates_api in Hapi.
  assert (∀ r,
            r ∈ includeDerivedPrimTypes
                  (foldl (discoverStep APISchemaFamily E)
                     (beforeAPIDiscovery E tm log)
                     (candidates APISchemaFamily E)) →
            is_Some (_apiSchemaTypeMap
                       (foldl (discoverStep APISchemaFamily E)
                          (beforeAPIDiscovery E tm log)
                          (candidates APISchemaFamily E)) !! r)) as Hroots.
  { apply (discoverLoop_roots APISchemaFamily).
    intros r Hr. rewrite Hnil in Hr. by apply elem_of_nil in Hr. }
  assert (∀ k0 v0,
            _apiSchemaTypeMap
              (foldl (discoverStep APISchemaFamily E)
                 (beforeAPIDiscovery E tm log) (candidates APISchemaFamily E))
              !! k0 = Some v0 →
            k0 ≠ "" ∧ v0 ∈ candidates APISchemaFamily E
            ∧ writtenName APISchemaFamily E v0 = Some k0) as Hdisc.
  { intros k0 v0 Hk0.
    apply (discoverLoop_values APISchemaFamily) in Hk0 as [Hin Hw]; [|done].
    split; [|done]. intros ->. unfold writtenName in Hw.
    destruct (candidateName APISchemaFamily E v0) as [s|]; [|done].
    destruct (decide (s = "")); [done|]. congruence. }
  destruct (_apiSchemaTypeMap
              (foldl (discoverStep APISchemaFamily E)
                 (beforeAPIDiscovery E tm log) (candidates APISchemaFamily E))
              !! k) as [x|] eqn:Hx.
  - pose proof (processDerivedTypes_preserves E _ _ _ _ _ _ _ _ Hapi Hx).
    assert (x = v) as -> by congruence.
    destruct (Hdisc k v Hx) as (? & ? & ?). eauto.
  - destruct (processDerivedTypes_rooted E _ _ _ _ _ _ Hapi Hroots k v Hx Hk)
      as (? & k0 & Hk0).
    destruct (Hdisc k0 v Hk0) as (? & ? & ?). eauto.
Qed.

End Provenance.

(** ** The finished tables *)

Section Tables.
Variable E : Env.

Lemma apiStep_keyless st t :
  _keylessApiSchemaAdapterTypes (apiStep E st t)
  = _keylessApiSchemaAdapterTypes st
      ++ filter (λ t, candidateName APISchemaFamily E t = Some "") [t].
Proof.
  rewrite filter_cons, filter_nil.
  destruct (candidateName APISchemaFamily E t) as [s|] eqn:Hc.
  - apply candidateName_discovered in Hc as [metadata Hd].
    rewrite (apiStep_discovered E st t metadata s Hd). unfold apiRecord.
    destruct (decide (s = "")) as [->|Hs].
    + by rewrite decide_True.
    + rewrite decide_False by congruence. rewrite app_nil_r. simpl.
      by destruct (metadata !! "includeDerivedPrimTypes") as [[|[]| |]|].
  - destruct (discoverStep_skipped E APISchemaFamily st t Hc) as (d & Hd & _).
    simpl in Hd. rewrite Hd, decide_False by done. by rewrite app_nil_r.
Qed.

Lemma apiLoop_keyless_filter types st :
  _keylessApiSchemaAdapterTypes (foldl (apiStep E) st types)
  = _keylessApiSchemaAdapterTypes st
      ++ filter (λ t, candidateName APISchemaFamily E t = Some "") types.
Proof.
  revert st. induction types as [|t types IH]; intros st; simpl.
  - by rewrite app_nil_r.
  - rewrite IH, apiStep_keyless, <- app_assoc. f_equal.
    by rewrite <- filter_app.
Qed.

Lemma beforeAPIDiscovery_keyless tm log :
  _keylessApiSchemaAdapterTypes (beforeAPIDiscovery E tm log) = [].
Proof.
  unfold beforeAPIDiscovery, afterFamilies. simpl.
  rewrite (proj2 (familyLoop_frame E _ _)).
  unfold afterPrimDiscovery. by rewrite (proj2 (primLoop_frame E _ _)).
Qed.

(** A candidate that passes the checks while external plugins are
    disabled is marked internal. *)
Lemma candidateName_internal f t s :
  AreExternalPluginsEnabled E = false →
  candidateName f E t = Some s → markedInternal E t.
Proof.
  intros Hoff. unfold candidateName, markedInternal, isEnabled.
  rewrite Hoff.
  destruct (GetPluginForType E t) as [plugin|]; [|done].
  destruct (GetMetadataForType plugin t !! "isInternal")
    as [[|[]| |]|] eqn:Hi; try done.
  eauto.
Qed.

Lemma writtenName_candidateName f t s :
  writtenName f E t = Some s → candidateName f E t = Some s.
Proof.
  unfold writtenName. destruct (candidateName f E t) as [s'|]; [|done].
  destruct f; [done|]. by case_decide.
Qed.

(** X1.  The key vectors list the keys of the two maps, each once, and the
    lookups answer by them; the reserved instance key is accepted by
    [HasAdapter] whether or not it is listed. *)
Theorem keys_agree_with_lookups (fuel : nat) (st : State) :
  UsdImagingAdapterRegistry E fuel = Some st →
  NoDup (GetAdapterKeys st)
  ∧ NoDup (GetAPISchemaAdapterKeys st)
  ∧ (∀ k, k ∈ GetAdapterKeys st ↔ is_Some (_typeMap st !! k))
  ∧ (∀ k, HasAdapter E st k = true
          ↔ k = instanceAdapterKey E ∨ k ∈ GetAdapterKeys st)
  ∧ (∀ k, HasAPISchemaAdapter st k = true ↔ k ∈ GetAPISchemaAdapterKeys st).
Proof.
  intros (tm & log & tm' & log' & _ & _ & Htm & Hkeys & Htm' & Hkeys' & _)
    %constructor_members.
  unfold GetAdapterKeys, GetAPISchemaAdapterKeys, HasAdapter,
    HasAPISchemaAdapter.
  rewrite Hkeys, Hkeys', Htm, Htm'. unfold keys.
  split; [apply NoDup_fst_map_to_list|].
  split; [apply NoDup_fst_map_to_list|].
  split; [apply elem_of_keys|]. split.
  - intros k. fold (keys tm). rewrite elem_of_keys. case_decide.
    + split; [by left|done].
    + rewrite bool_decide_eq_true. split; [by right|]. by intros [?|?].
  - intros k. fold (keys tm'). by rewrite elem_of_keys, bool_decide_eq_true.
Qed.

(** X2.  Construction by name succeeds only for keys the registry has: for a
    key it does not have, the result is empty and the only diagnostic is
    the debug message about the unknown prim type. *)
Theorem construction_needs_key (st : State) (adapterKey : TfToken) :
  (is_Some (ConstructAdapter E st adapterKey).1 →
   HasAdapter E st adapterKey = true)
  ∧ (HasAdapter E st adapterKey = false →
     ConstructAdapter E st adapterKey = (None, [UnknownPrimType adapterKey]))
  ∧ (is_Some (ConstructAPISchemaAdapter E st adapterKey).1 →
     HasAPISchemaAdapter st adapterKey = true)
  ∧ (HasAPISchemaAdapter st adapterKey = false →
     ConstructAPISchemaAdapter E st adapterKey
     = (None, [UnknownPrimType adapterKey])).
Proof.
  unfold ConstructAdapter, ConstructAPISchemaAdapter, HasAdapter,
    HasAPISchemaAdapter, _ConstructAdapter.
  repeat split.
  - case_decide; [done|]. intros Hsome. apply bool_decide_eq_true.
    destruct (_typeMap st !! adapterKey); [eauto|].
    simpl in Hsome. by destruct Hsome.
  - case_decide; [done|]. intros Hnone%bool_decide_eq_false.
    destruct (_typeMap st !! adapterKey); [|done].
    destruct Hnone. eauto.
  - intros Hsome. apply bool_decide_eq_true.
    destruct (_apiSchemaTypeMap st !! adapterKey); [eauto|].
    simpl in Hsome. by destruct Hsome.
  - intros Hnone%bool_decide_eq_false.
    destruct (_apiSchemaTypeMap st !! adapterKey); [|done].
    destruct Hnone. eauto.
Qed.

(** X3.  A candidate that fails a check of its loop (no plugin, disabled, a
    malformed [isInternal], a missing or malformed name) leaves the maps,
    the keyless list and the recorded opt-ins as they were and issues
    exactly one diagnostic, which is never a coding error: a debug
    message when the plugin is missing or the candidate is disabled, a
    runtime error when its metadata is malformed. *)
Theorem skipped_candidate_only_logs
    (f : AdapterFamily) (st : State) (t : TfType) :
  candidateName f E t = None →
  ∃ d, issued st (discoverStep f E st t) [d]
       ∧ (severity d = Debug ∨ severity d = RuntimeError)
       ∧ (severity d = Debug ↔
            GetPluginForType E t = None
            ∨ ∃ plugin, GetPluginForType E t = Some plugin
                        ∧ isEnabled E (GetMetadataForType plugin t)
                          = Some false)
       ∧ _typeMap (discoverStep f E st t) = _typeMap st
       ∧ _apiSchemaTypeMap (discoverStep f E st t) = _apiSchemaTypeMap st
       ∧ _keylessApiSchemaAdapterTypes (discoverStep f E st t)
         = _keylessApiSchemaAdapterTypes st
       ∧ includeDerivedPrimTypes (discoverStep f E st t)
         = includeDerivedPrimTypes st
       ∧ includeSchemaFamilies (discoverStep f E st t)
         = includeSchemaFamilies st.
Proof.
  intros Hc. destruct (discoverStep_skipped E f st t Hc) as (d & -> & ? & ?).
  exists d. done.
Qed.

(** X4.  Every entry of the finished prim map holds the unknown type or a
    prim adapter candidate that wrote a name; every entry of the finished
    API schema map has a non-empty key and holds an API schema adapter
    candidate that wrote a non-empty name, never the unknown type unless
    that is a candidate itself. *)
Theorem entries_hold_candidates (fuel : nat) (st : State) :
  UsdImagingAdapterRegistry E fuel = Some st →
  (∀ k v, _typeMap st !! k = Some v →
     v = TfUnknown
     ∨ v ∈ candidates PrimFamily E ∧ is_Some (writtenName PrimFamily E v))
  ∧ (∀ k v, _apiSchemaTypeMap st !! k = Some v →
       k ≠ ""
       ∧ v ∈ candidates APISchemaFamily E
       ∧ ∃ s, s ≠ "" ∧ writtenName APISchemaFamily E v = Some s).
Proof.
  intros Hctor. split; intros k v Hk.
  - by eapply constructor_prim_values.
  - by eapply constructor_api_values.
Qed.

(** X5.  A name written by some candidate maps, in the finished registry, to
    the last candidate of the enumeration that wrote it: the later
    passes never replace it. *)
Theorem last_writer_owns_name
    (f : AdapterFamily) (fuel : nat) (st : State) (s : TfToken) (t : TfType) :
  UsdImagingAdapterRegistry E fuel = Some st →
  last (filter (λ t, writtenName f E t = Some s) (candidates f E)) = Some t →
  familyMap f st !! s = Some t.
Proof.
  intros Hctor Hlast. destruct f; simpl.
  - eapply constructor_keeps_discovered; [done|].
    pose proof (discoverLoop_lookup E PrimFamily (candidates PrimFamily E)
                  initial s) as Hlook.
    rewrite Hlast in Hlook. exact Hlook.
  - apply constructor_members in Hctor
      as (tm & log & tm' & log' & _ & Hapi & _ & _ & -> & _).
    eapply processDerivedTypes_preserves; [exact Hapi|].
    pose proof (discoverLoop_lookup E APISchemaFamily
                  (candidates APISchemaFamily E)
                  (beforeAPIDiscovery E tm log) s) as Hlook.
    rewrite Hlast in Hlook. exact Hlook.
Qed.

(** X6.  The keyless list of the finished registry is the enumeration of the
    API schema adapter candidates, in order, restricted to those that
    pass the checks with the empty name. *)
Theorem keyless_list_is_filtered (fuel : nat) (st : State) :
  UsdImagingAdapterRegistry E fuel = Some st →
  _keylessApiSchemaAdapterTypes st
  = filter (λ t, candidateName APISchemaFamily E t = Some "")
      (candidates APISchemaFamily E).
Proof.
  intros (tm & log & tm' & log' & _ & _ & _ & _ & _ & _ & ->)
    %constructor_members.
  unfold afterAPIDiscovery.
  by rewrite apiLoop_keyless_filter, beforeAPIDiscovery_keyless.
Qed.

(** X7.  With external plugins disabled, every adapter type in the finished
    registry (behind a key of either map, the unknown type apart, or in
    the keyless list) is marked internal by its metadata. *)
Theorem disabled_externals_admit_internal_only (fuel : nat) (st : State) :
  AreExternalPluginsEnabled E = false →
  UsdImagingAdapterRegistry E fuel = Some st →
  (∀ k v, _typeMap st !! k = Some v → v = TfUnknown ∨ markedInternal E v)
  ∧ (∀ k v, _apiSchemaTypeMap st !! k = Some v → markedInternal E v)
  ∧ (∀ t, t ∈ _keylessApiSchemaAdapterTypes st → markedInternal E t).
Proof.
  intros Hoff Hctor. repeat split.
  - intros k v Hk.
    destruct (constructor_prim_values E fuel st k v Hctor Hk)
      as [?|[_ [s Hs]]]; [by left|right].
    eapply candidateName_internal; [done|].
    by apply writtenName_candidateName.
  - intros k v Hk.
    destruct (constructor_api_values E fuel st k v Hctor Hk)
      as (_ & _ & s & _ & Hs).
    eapply candidateName_internal; [done|].
    by apply writtenName_candidateName.
  - intros t Ht.
    apply constructor_members in Hctor
      as (tm & log & tm' & log' & _ & _ & _ & _ & _ & _ & Hkl).
    rewrite Hkl in Ht. unfold afterAPIDiscovery in Ht.
    rewrite apiLoop_keyless_filter, beforeAPIDiscovery_keyless in Ht.
    apply list_elem_of_filter in Ht as [Hc _].
    by eapply candidateName_internal.
Qed.

End Tables.

(** ** What the opt-ins guarantee *)

Section OptIns.
Variable E : Env.

(** The two local vectors only grow. *)
Lemma primRecord_grows t metadata s st :
  (∃ l, includeDerivedPrimTypes (primRecord t metadata s st)
        = includeDerivedPrimTypes st ++ l)
  ∧ (∃ l, includeSchemaFamilies (primRecord t metadata s st)
          = includeSchemaFamilies st ++ l).
Proof.
  unfold primRecord.
  destruct (_typeMap (emit (DiscoveredPrim t s) st) !! s); simpl;
    destruct (metadata !! "includeDerivedPrimTypes") as [[|[]| |]|]; simpl;
    destruct (metadata !! "includeSchemaFamily") as [[|[]| |]|]; simpl;
    split; first [by exists [] ; rewrite app_nil_r | by eexists].
Qed.

Lemma discoverStep_grows f st t :
  (∃ l, includeDerivedPrimTypes (discoverStep f E st t)
        = includeDerivedPrimTypes st ++ l)
  ∧ (∃ l, includeSchemaFamilies (discoverStep f E st t)
          = includeSchemaFamilies st ++ l).
Proof.
  destruct (candidateName f E t) as [s|] eqn:Hc.
  - apply candidateName_discovered in Hc as [metadata Hd].
    destruct f; simpl.
    + rewrite (primStep_discovered E st t metadata s Hd).
      apply primRecord_grows.
    + rewrite (apiStep_discovered E st t metadata s Hd). unfold apiRecord.
      destruct (decide (s = "")); simpl;
        [split; exists []; by rewrite app_nil_r|].
      destruct (metadata !! "includeDerivedPrimTypes") as [[|[]| |]|]; simpl;
        split; first [by exists [] ; rewrite app_nil_r | by eexists].
  - destruct (discoverStep_skipped E f st t Hc) as (d & -> & _).
    split; exists []; by rewrite app_nil_r.
Qed.

Lemma discoverLoop_grows f types st :
  (∀ r, r ∈ includeDerivedPrimTypes st →
        r ∈ includeDerivedPrimTypes (foldl (discoverStep f E) st types))
  ∧ (∀ pair, pair ∈ includeSchemaFamilies st →
       pair ∈ includeSchemaFamilies (foldl (discoverStep f E) st types)).
Proof.
  revert st. induction types as [|t types IH]; intros st; [done|].
  simpl. destruct (IH (discoverStep f E st t)) as [IHr IHf].
  destruct (discoverStep_grows f st t) as [[l Hl] [l' Hl']].
  split.
  - intros r Hr. apply IHr. rewrite Hl. apply elem_of_app. by left.
  - intros pair Hp. apply IHf. rewrite Hl'. apply elem_of_app. by left.
Qed.

Lemma familyVariant_grows familyName includeDerived a st si r :
  r ∈ includeDerivedPrimTypes st →
  r ∈ includeDerivedPrimTypes
        (familyVariant E familyName includeDerived a st si).
Proof.
  intros Hr. unfold familyVariant, emplace.
  destruct (_typeMap st !! identifier si); [done|]. simpl.
  destruct includeDerived; [|done]. simpl. apply elem_of_app. by left.
Qed.

Lemma familyVariants_grow familyName includeDerived a variants st r :
  r ∈ includeDerivedPrimTypes st →
  r ∈ includeDerivedPrimTypes
        (foldl (familyVariant E familyName includeDerived a) st variants).
Proof.
  revert st. induction variants as [|si variants IH]; intros st Hr; [done|].
  simpl. by apply IH, familyVariant_grows.
Qed.

Lemma familyLoop_grows pairs st r :
  r ∈ includeDerivedPrimTypes st →
  r ∈ includeDerivedPrimTypes (foldl (familyStep E) st pairs).
Proof.
  revert st. induction pairs as [|pair pairs IH]; intros st Hr; [done|].
  simpl. apply IH. unfold familyStep.
  destruct (subscript (_typeMap st) pair.1) as [a tm].
  by apply familyVariants_grow.
Qed.

(** A candidate with a well-formed opt-in is recorded by the loop. *)
Lemma discoverLoop_records_root f types st t metadata s :
  t ∈ types → declares f E t metadata s →
  metadata !! "includeDerivedPrimTypes" = Some (JsBool true) →
  s ∈ includeDerivedPrimTypes (foldl (discoverStep f E) st types).
Proof.
  intros (l1 & l2 & ->)%list_elem_of_split [Hd Hs] Hopt.
  rewrite foldl_app. simpl. apply discoverLoop_grows.
  generalize (foldl (discoverStep f E) st l1). intros st1.
  destruct f; simpl.
  - rewrite (primStep_discovered E st1 t metadata s Hd). unfold primRecord.
    rewrite Hopt.
    destruct (_typeMap (emit (DiscoveredPrim t s) st1) !! s); simpl;
      destruct (metadata !! "includeSchemaFamily") as [[|[]| |]|]; simpl;
      apply elem_of_app; right; apply list_elem_of_here.
  - rewrite (apiStep_discovered E st1 t metadata s Hd). unfold apiRecord.
    rewrite decide_False by (by apply Hs). rewrite Hopt. simpl.
    apply elem_of_app. right. apply list_elem_of_here.
Qed.

Lemma primLoop_records_family types st t metadata s includeDerived :
  t ∈ types → declares PrimFamily E t metadata s →
  optIn metadata "includeDerivedPrimTypes" = Some includeDerived →
  metadata !! "includeSchemaFamily" = Some (JsBool true) →
  (s, includeDerived) ∈ includeSchemaFamilies (foldl (primStep E) st types).
Proof.
  intros (l1 & l2 & ->)%list_elem_of_split [Hd _] Hopt Hfam.
  rewrite foldl_app. simpl.
  apply (proj2 (discoverLoop_grows PrimFamily l2 _)).
  simpl. rewrite (primStep_discovered E _ t metadata s Hd).
  rewrite (primRecord_records_family t metadata s includeDerived _ Hopt Hfam).
  apply elem_of_app. right. apply list_elem_of_here.
Qed.

(** After Pass 2 every schema of a processed family has an entry. *)
Lemma familyLoop_covers pairs st pair si :
  pair ∈ pairs → si ∈ FindSchemaInfosInFamily E pair.1 →
  is_Some (_typeMap (foldl (familyStep E) st pairs) !! identifier si).
Proof.
  intros (l1 & l2 & ->)%list_elem_of_split Hsi.
  rewrite foldl_app. simpl.
  generalize (foldl (familyStep E) st l1). intros st1.
  assert (is_Some (_typeMap (familyStep E st1 pair) !! identifier si))
    as [v Hv].
  { rewrite familyStep_lookup.
    destruct (_typeMap st1 !! identifier si); [eauto|].
    rewrite decide_True; [eauto|]. right. by apply list_elem_of_fmap_2. }
  exists v. by apply familyLoop_preserves.
Qed.

(** When the family names are keys, Pass 2 brings no new adapter type
    into the map. *)
Lemma familyLoop_values_keyed (P : TfType → Prop) pairs st :
  (∀ pair, pair ∈ pairs → is_Some (_typeMap st !! pair.1)) →
  (∀ k v, _typeMap st !! k = Some v → P v) →
  ∀ k v, _typeMap (foldl (familyStep E) st pairs) !! k = Some v → P v.
Proof.
  revert st. induction pairs as [|pair pairs IH]; intros st Hkeys Hst; [done|].
  simpl. apply IH.
  - intros pair' Hp'. destruct (Hkeys pair') as [x Hx];
      [by apply list_elem_of_further|].
    exists x. by apply familyStep_preserves.
  - intros k v. rewrite familyStep_lookup.
    destruct (_typeMap st !! k) as [x|] eqn:Hk.
    + intros [= <-]. eauto.
    + case_decide; [|done]. intros [= <-].
      destruct (Hkeys pair) as [x Hx]; [apply list_elem_of_here|].
      rewrite Hx. simpl. eauto.
Qed.

(** Every named direct subtype of a resolvable root has an entry after
    Pass 3. *)
Lemma processDerivedTypes_covers fuel roots (tm : gmap string TfType)
    log tm' log' r d :
  _ProcessDerivedTypes E fuel roots tm log = Some (tm', log') →
  r ∈ roots →
  IsUnknown (GetTypeFromSchemaTypeName E r) = false →
  d ∈ GetDirectlyDerivedTypes E (GetTypeFromSchemaTypeName E r) →
  GetSchemaTypeName E d ≠ "" →
  is_Some (tm' !! GetSchemaTypeName E d).
Proof.
  revert tm log. induction roots as [|r0 roots IH]; intros tm log; simpl.
  - intros _ Hr. by apply elem_of_nil in Hr.
  - destruct (processRoot E fuel r0 tm log) as [[tm1 log1]|] eqn:Hroot;
      [|done].
    intros Hrun [->|Hr]%elem_of_cons Hvalid Hd Hnamed; [|by eapply IH].
    unfold processRoot in Hroot. rewrite Hvalid in Hroot.
    destruct (subscript tm r0) as [a tm0].
    destruct (propagate_covers E _ _ _ _ _ _ _ _ Hroot d) as [v Hv];
      [by rewrite elem_of_reverse|done|].
    exists v. by eapply processDerivedTypes_preserves.
Qed.

(** X8.  A prim adapter whose [includeSchemaFamily] entry is present but
    holds no bool: its name stays mapped to it and its derived opt-in, if
    set, stays recorded; no family is recorded and the step ends with a
    runtime error. *)
Theorem malformed_includeFamily_keeps_derived
    (st : State) (t : TfType) (metadata : gmap string JsValue)
    (s : TfToken) (includeDerived : bool) (v : JsValue) :
  declares PrimFamily E t metadata s →
  optIn metadata "includeDerivedPrimTypes" = Some includeDerived →
  metadata !! "includeSchemaFamily" = Some v →
  isBool v = false →
  _typeMap (primStep E st t) !! s = Some t
  ∧ includeDerivedPrimTypes (primStep E st t)
    = includeDerivedPrimTypes st ++ (if includeDerived then [s] else [])
  ∧ includeSchemaFamilies (primStep E st t) = includeSchemaFamilies st
  ∧ ∃ new, issued st (primStep E st t) (new ++ [IncludeFamilyCorrupted t])
           ∧ severity (IncludeFamilyCorrupted t) = RuntimeError.
Proof.
  intros [Hd _] Hopt Hv Hb.
  rewrite (primStep_discovered E st t metadata s Hd).
  rewrite primRecord_typeMap, lookup_insert_eq. split; [done|].
  unfold optIn in Hopt. unfold primRecord, issued. rewrite Hv. simpl.
  destruct (_typeMap st !! s) as [previous|]; simpl;
    destruct (metadata !! "includeDerivedPrimTypes") as [[|[]| |]|];
    try done; injection Hopt as <-; destruct v; try done; simpl;
    rewrite ?app_nil_r; (split; [done|]); (split; [done|]);
    first [ exists [DiscoveredPrim t s; AdapterConflict s t previous]
          | exists [DiscoveredPrim t s] ];
    by rewrite <- !app_assoc.
Qed.

(** X9.  A prim adapter among the candidates that declares its name and
    [includeSchemaFamily = true], with a well-formed derived opt-in: in
    the finished registry every schema identifier of its family is a key
    of the prim map and holds a prim adapter candidate that wrote a name,
    never the unknown type by default. *)
Theorem family_members_are_mapped
    (fuel : nat) (st : State) (t : TfType) (metadata : gmap string JsValue)
    (s : TfToken) (includeDerived : bool) (schemaInfo : SchemaInfo) :
  UsdImagingAdapterRegistry E fuel = Some st →
  t ∈ candidates PrimFamily E →
  declares PrimFamily E t metadata s →
  optIn metadata "includeDerivedPrimTypes" = Some includeDerived →
  metadata !! "includeSchemaFamily" = Some (JsBool true) →
  schemaInfo ∈ FindSchemaInfosInFamily E s →
  HasAdapter E st (identifier schemaInfo) = true
  ∧ ∃ v, _typeMap st !! identifier schemaInfo = Some v
         ∧ v ∈ candidates PrimFamily E
         ∧ is_Some (writtenName PrimFamily E v).
Proof.
  intros Hctor Hin Hdecl Hopt Hfam Hsi.
  pose proof (primLoop_records_family _ initial t metadata s includeDerived
                Hin Hdecl Hopt Hfam) as Hrec.
  fold (afterPrimDiscovery E) in Hrec.
  destruct (familyLoop_covers _ (afterPrimDiscovery E) _ schemaInfo Hrec Hsi)
    as [v Hv].
  fold (afterFamilies E) in Hv.
  assert (v ∈ candidates PrimFamily E ∧ is_Some (writtenName PrimFamily E v))
    as Hcand.
  { revert Hv. unfold afterFamilies.
    apply (familyLoop_values_keyed
             (λ v, v ∈ candidates PrimFamily E
                   ∧ is_Some (writtenName PrimFamily E v))).
    - unfold afterPrimDiscovery. apply primLoop_families.
      intros pair Hp. by apply elem_of_nil in Hp.
    - intros k' v' Hk'. rewrite candidates_prim in Hk'.
      apply (discoverLoop_values E PrimFamily) in Hk' as [? Hw]; [|done].
      split; [done|]. rewrite Hw. eauto. }
  apply constructor_members in Hctor
    as (tm & log & tm' & log' & Hprim & _ & Htm & _).
  assert (_typeMap st !! identifier schemaInfo = Some v) as Hfinal.
  { rewrite Htm. by eapply processDerivedTypes_preserves. }
  split; [|eauto].
  unfold HasAdapter. case_decide; [done|].
  apply bool_decide_eq_true. eauto.
Qed.

(** X10.  An adapter among the candidates of its family that declares its
    name and [includeDerivedPrimTypes = true], where the name resolves to
    a schema type: in the finished registry every direct subtype of that
    type with a schema type name is a key of the family's map. *)
Theorem derived_subtypes_are_mapped
    (f : AdapterFamily) (fuel : nat) (st : State) (t : TfType)
    (metadata : gmap string JsValue) (s : TfToken) (d : TfType) :
  UsdImagingAdapterRegistry E fuel = Some st →
  t ∈ candidates f E →
  declares f E t metadata s →
  metadata !! "includeDerivedPrimTypes" = Some (JsBool true) →
  IsUnknown (GetTypeFromSchemaTypeName E s) = false →
  d ∈ GetDirectlyDerivedTypes E (GetTypeFromSchemaTypeName E s) →
  GetSchemaTypeName E d ≠ "" →
  is_Some (familyMap f st !! GetSchemaTypeName E d).
Proof.
  intros Hctor Hin Hdecl Hopt Hvalid Hd Hnamed.
  apply constructor_members in Hctor
    as (tm & log & tm' & log' & Hprim & Hapi & Htm & _ & Htm' & _).
  destruct f; simpl in *.
  - rewrite Htm.
    eapply processDerivedTypes_covers; [exact Hprim| |done..].
    unfold afterFamilies. apply familyLoop_grows.
    apply (discoverLoop_records_root PrimFamily _ initial t metadata s);
      done.
  - rewrite Htm'.
    eapply processDerivedTypes_covers; [exact Hapi| |done..].
    apply (discoverLoop_records_root APISchemaFamily _ _ t metadata s); done.
Qed.

End OptIns.

(** ** The walk in detail *)

Section Walk.
Variable E : Env.

(** X11.  The walk issues one debug message per entry it adds, in the order of
    insertion; the entries it adds are exactly the names that had no
    entry before and have one after, each added once. *)
Theorem derived_mappings_are_logged
    (fuel : nat) (primTypeName : TfToken) (adapterType : TfType)
    (stack : list TfType) (tm tm' : gmap string TfType)
    (log log' : list Diagnostic) :
  propagate E fuel primTypeName adapterType stack tm log = Some (tm', log') →
  ∃ added : list TfToken,
    log' = log ++ (DerivedMapping primTypeName <$> added)
    ∧ NoDup added
    ∧ (∀ k, k ∈ added ↔ tm !! k = None ∧ tm' !! k = Some adapterType)
    ∧ size tm' = (size tm + length added)%nat.
Proof.
  revert stack tm log.
  induction fuel as [|fuel IH]; intros stack tm log Hrun.
  - destruct stack; simpl in Hrun; [|done]. injection Hrun as <- <-.
    exists []. simpl. rewrite app_nil_r.
    split; [done|]. split; [apply NoDup_nil_2|]. split; [|lia].
    intros k. split; [by intros ?%elem_of_nil|].
    intros [Hn Hs]. congruence.
  - destruct stack as [|d stack].
    { simpl in Hrun. injection Hrun as <- <-.
      exists []. simpl. rewrite app_nil_r.
      split; [done|]. split; [apply NoDup_nil_2|]. split; [|lia].
      intros k. split; [by intros ?%elem_of_nil|].
      intros [Hn Hs]. congruence. }
    destruct (decide (GetSchemaTypeName E d = "")) as [Hn|Hn].
    { rewrite propagate_unnamed in Hrun by done. eauto. }
    destruct (tm !! GetSchemaTypeName E d) as [y|] eqn:Hd.
    { rewrite propagate_present in Hrun by eauto. eauto. }
    rewrite propagate_absent in Hrun by done.
    destruct (IH _ _ _ Hrun) as (added & -> & Hnodup & Hadded & Hsize).
    destruct (propagate_spec E _ _ _ _ _ _ _ _ Hrun) as [Hkeep _].
    exists (GetSchemaTypeName E d :: added).
    split; [by rewrite <- app_assoc|]. split; [|split].
    + apply NoDup_cons_2; [|done]. intros [Hin _]%Hadded.
      by rewrite lookup_insert_eq in Hin.
    + intros k. rewrite elem_of_cons, Hadded. split.
      * intros [->|[Hk Hk']].
        -- split; [done|]. apply Hkeep, lookup_insert_eq.
        -- split; [|done]. destruct (decide (k = GetSchemaTypeName E d))
             as [->|]; [done|]. by rewrite lookup_insert_ne in Hk.
      * intros [Hk Hk'].
        destruct (decide (k = GetSchemaTypeName E d)) as [->|]; [by left|].
        right. split; [|done]. by rewrite lookup_insert_ne.
    + rewrite Hsize, map_size_insert_None by done. simpl. lia.
Qed.

(** X12.  Each entry the walk adds is the name of an unshadowed type all of
    whose named direct subtypes have an entry when the walk ends: the
    walk has descended below every type it mapped. *)
Theorem added_entries_cover_subtypes
    (fuel : nat) (primTypeName : TfToken) (adapterType : TfType)
    (stack : list TfType) (tm tm' : gmap string TfType)
    (log log' : list Diagnostic) (k : TfToken) :
  propagate E fuel primTypeName adapterType stack tm log = Some (tm', log') →
  tm !! k = None →
  is_Some (tm' !! k) →
  ∃ d, GetSchemaTypeName E d = k
       ∧ Unshadowed E tm stack d
       ∧ ∀ c, c ∈ GetDirectlyDerivedTypes E d →
              GetSchemaTypeName E c ≠ "" →
              is_Some (tm' !! GetSchemaTypeName E c).
Proof.
  revert stack tm log.
  induction fuel as [|fuel IH]; intros stack tm log Hrun Hk Hk'.
  - destruct stack; simpl in Hrun; [|done]. injection Hrun as <- <-.
    rewrite Hk in Hk'. by destruct Hk'.
  - destruct stack as [|d stack].
    { simpl in Hrun. injection Hrun as <- <-.
      rewrite Hk in Hk'. by destruct Hk'. }
    assert (∀ x, x ∈ stack → Unshadowed E tm (d :: stack) x) as Hrest.
    { intros x Hx. by apply Unshadowed_stack, list_elem_of_further. }
    destruct (decide (GetSchemaTypeName E d = "")) as [Hn|Hn].
    { rewrite propagate_unnamed in Hrun by done.
      destruct (IH _ _ _ Hrun Hk Hk') as (x & <- & Hx & Hcover).
      exists x. repeat split; [|done].
      eapply Unshadowed_weaken; [| |exact Hx]; eauto. }
    destruct (tm !! GetSchemaTypeName E d) as [y|] eqn:Hd.
    { rewrite propagate_present in Hrun by eauto.
      destruct (IH _ _ _ Hrun Hk Hk') as (x & <- & Hx & Hcover).
      exists x. repeat split; [|done].
      eapply Unshadowed_weaken; [| |exact Hx]; eauto. }
    rewrite propagate_absent in Hrun by done.
    destruct (decide (k = GetSchemaTypeName E d)) as [->|Hne].
    + exists d. split; [done|]. split; [apply Unshadowed_stack,
        list_elem_of_here|].
      intros c Hc Hnamed.
      eapply (propagate_covers E _ _ _ _ _ _ _ _ Hrun); [|done].
      apply elem_of_app. left. by rewrite elem_of_reverse.
    + destruct (IH _ _ _ Hrun) as (x & <- & Hx & Hcover); [|done|].
      { by rewrite lookup_insert_ne. }
      exists x. repeat split; [|done].
      eapply Unshadowed_weaken; [| |exact Hx].
      * intros k0 Hnone. destruct (decide (k0 = GetSchemaTypeName E d))
          as [->|]; [done|].
        by rewrite lookup_insert_ne in Hnone.
      * intros c Hc. apply elem_of_app in Hc as [Hc|Hc]; [|by apply Hrest].
        rewrite elem_of_reverse in Hc.
        apply (Unshadowed_child E tm (d :: stack) d c); [|done..].
        apply Unshadowed_stack, list_elem_of_here.
Qed.

End Walk.

(** ** Roots enqueued by Pass 2 *)

Section FamilyRoots.
Variable E : Env.

Lemma familyVariants_roots_off familyName a variants st :
  includeDerivedPrimTypes
    (foldl (familyVariant E familyName false a) st variants)
  = includeDerivedPrimTypes st.
Proof.
  revert st. induction variants as [|si variants IH]; intros st; [done|].
  simpl. rewrite IH. unfold familyVariant, emplace.
  by destruct (_typeMap st !! identifier si).
Qed.

Lemma familyVariants_roots_sound familyName includeDerived a variants st n :
  n ∈ includeDerivedPrimTypes
        (foldl (familyVariant E familyName includeDerived a) st variants) →
  n ∈ includeDerivedPrimTypes st
  ∨ includeDerived = true
    ∧ ∃ si, si ∈ variants ∧ n = GetSchemaTypeName E (type si)
            ∧ _typeMap st !! identifier si = None.
Proof.
  revert st. induction variants as [|si0 variants IH]; intros st; simpl;
    [by left|].
  intros [Hn|(Hb & si & Hsi & -> & Hnone)]%IH.
  - unfold familyVariant, emplace in Hn.
    destruct (_typeMap st !! identifier si0) eqn:Hid; [by left|].
    simpl in Hn. destruct includeDerived; [|by left]. simpl in Hn.
    apply elem_of_app in Hn as [Hn|Hn]; [by left|].
    apply list_elem_of_singleton in Hn as ->. right. split; [done|].
    exists si0. split; [apply list_elem_of_here|done].
  - right. split; [done|]. exists si.
    split; [by apply list_elem_of_further|]. split; [done|].
    rewrite familyVariant_typeMap, emplace_lookup in Hnone.
    by destruct (_typeMap st !! identifier si).
Qed.

Lemma familyVariants_roots_complete familyName a variants st id :
  id ∈ identifier <$> variants →
  _typeMap st !! id = None →
  ∃ si, si ∈ variants ∧ identifier si = id
        ∧ GetSchemaTypeName E (type si)
          ∈ includeDerivedPrimTypes
              (foldl (familyVariant E familyName true a) st variants).
Proof.
  revert st. induction variants as [|si0 variants IH]; intros st; simpl.
  - by intros ?%elem_of_nil.
  - intros Hid Hnone. destruct (decide (identifier si0 = id)) as [Heq|Hne].
    + exists si0. split; [apply list_elem_of_here|]. split; [done|].
      apply familyVariants_grow. unfold familyVariant, emplace.
      rewrite Heq, Hnone. simpl. apply elem_of_app. right.
      apply list_elem_of_here.
    + apply elem_of_cons in Hid as [?|Hid]; [congruence|].
      destruct (IH (familyVariant E familyName true a st si0))
        as (si & Hsi & Hsid & Hroot); [done| |].
      { rewrite familyVariant_typeMap, emplace_lookup, Hnone.
        rewrite decide_False; [done|]. congruence. }
      exists si. split; [by apply list_elem_of_further|done].
Qed.

(** X13.  Pass 2 enqueues for derived-type propagation the schema type names
    of the family members it has just mapped, and only when the pair
    carries the derived opt-in: members that already had an entry, and
    the family name itself, are never enqueued by it. *)
Theorem family_enqueues_new_members (st : State) (pair : TfToken * bool) :
  (pair.2 = false →
   includeDerivedPrimTypes (familyStep E st pair) = includeDerivedPrimTypes st)
  ∧ (∀ n, n ∈ includeDerivedPrimTypes (familyStep E st pair) →
          n ∈ includeDerivedPrimTypes st
          ∨ pair.2 = true
            ∧ ∃ si, si ∈ FindSchemaInfosInFamily E pair.1
                    ∧ n = GetSchemaTypeName E (type si)
                    ∧ _typeMap st !! identifier si = None
                    ∧ identifier si ≠ pair.1)
  ∧ (∀ id, pair.2 = true →
           id ∈ identifier <$> FindSchemaInfosInFamily E pair.1 →
           _typeMap st !! id = None → id ≠ pair.1 →
           ∃ si, si ∈ FindSchemaInfosInFamily E pair.1 ∧ identifier si = id
                 ∧ GetSchemaTypeName E (type si)
                   ∈ includeDerivedPrimTypes (familyStep E st pair)).
Proof.
  unfold familyStep.
  pose proof (subscript_lookup (_typeMap st) pair.1) as Hsub.
  destruct (subscript (_typeMap st) pair.1) as [a tm0]. simpl in Hsub.
  destruct pair as [familyName includeDerived]. simpl in *.
  split; [|split].
  - intros ->. by rewrite familyVariants_roots_off.
  - intros n [Hn|(Hb & si & Hsi & -> & Hnone)]%familyVariants_roots_sound;
      [by left|].
    right. split; [done|]. exists si. simpl in Hnone.
    rewrite Hsub in Hnone.
    destruct (_typeMap st !! identifier si); [done|].
    by case_decide.
  - intros id -> Hid Hnone Hne.
    apply familyVariants_roots_complete; [done|]. simpl.
    rewrite Hsub, Hnone. by rewrite decide_False.
Qed.

End FamilyRoots.

(** ** Coding errors of the constructor *)

Section CodingErrors.
Variable E : Env.

Lemma primRecord_coding_errors t metadata s st :
  ∃ new, issued st (primRecord t metadata s st) new
         ∧ ∀ d, d ∈ new → severity d = CodingError →
                ∃ previous, d = AdapterConflict s t previous
                            ∧ _typeMap st !! s = Some previous.
Proof.
  unfold primRecord, issued. simpl.
  destruct (_typeMap st !! s) as [previous|]; simpl;
    destruct (metadata !! "includeDerivedPrimTypes") as [[|[]| |]|]; simpl;
    destruct (metadata !! "includeSchemaFamily") as [[|[]| |]|]; simpl;
    rewrite <- ?app_assoc; (eexists; split; [reflexivity|]);
    simpl; intros d Hd Hsev;
    repeat (apply elem_of_cons in Hd as [->|Hd]; [by eauto|]);
    by apply elem_of_nil in Hd.
Qed.

Lemma familyVariant_log familyName includeDerived a st si :
  ∃ new, issued st (familyVariant E familyName includeDerived a st si) new
         ∧ ∀ d, d ∈ new → severity d = Debug.
Proof.
  unfold familyVariant, emplace, issued.
  destruct (_typeMap st !! identifier si).
  - exists []. rewrite app_nil_r. split; [done|]. by intros d ?%elem_of_nil.
  - eexists [_]. split; [by destruct includeDerived|].
    by intros d ->%list_elem_of_singleton.
Qed.

Lemma issued_trans st1 st2 st3 new1 new2 :
  issued st1 st2 new1 → issued st2 st3 new2 → issued st1 st3 (new1 ++ new2).
Proof. unfold issued. intros H1 H2. by rewrite H2, H1, app_assoc. Qed.

Lemma familyVariants_log familyName includeDerived a variants st :
  ∃ new,
    issued st
      (foldl (familyVariant E familyName includeDerived a) st variants) new
    ∧ ∀ d, d ∈ new → severity d = Debug.
Proof.
  revert st. induction variants as [|si variants IH]; intros st; simpl.
  - exists []. unfold issued. rewrite app_nil_r. split; [done|].
    by intros d ?%elem_of_nil.
  - destruct (familyVariant_log familyName includeDerived a st si)
      as (new1 & H1 & Hd1).
    destruct (IH (familyVariant E familyName includeDerived a st si))
      as (new2 & H2 & Hd2).
    exists (new1 ++ new2). split; [by eapply issued_trans|].
    intros d [?|?]%elem_of_app; eauto.
Qed.

Lemma familyLoop_log pairs st :
  ∃ new, issued st (foldl (familyStep E) st pairs) new
         ∧ ∀ d, d ∈ new → severity d = Debug.
Proof.
  revert st. induction pairs as [|pair pairs IH]; intros st; simpl.
  - exists []. unfold issued. rewrite app_nil_r. split; [done|].
    by intros d ?%elem_of_nil.
  - assert (∃ new, issued st (familyStep E st pair) new
                   ∧ ∀ d, d ∈ new → severity d = Debug)
      as (new1 & H1 & Hd1).
    { unfold familyStep. destruct (subscript (_typeMap st) pair.1) as [a tm].
      apply (familyVariants_log pair.1 pair.2 a _ (with_typeMap tm st)). }
    destruct (IH (familyStep E st pair)) as (new2 & H2 & Hd2).
    exists (new1 ++ new2). split; [by eapply issued_trans|].
    intros d [?|?]%elem_of_app; eauto.
Qed.

Lemma processDerivedTypes_log fuel roots (tm : gmap string TfType)
    log tm' log' :
  _ProcessDerivedTypes E fuel roots tm log = Some (tm', log') →
  ∃ new, log' = log ++ new ∧ ∀ d, d ∈ new → severity d = Debug.
Proof.
  revert tm log. induction roots as [|r roots IH]; intros tm log; simpl.
  - intros [= <- <-]. exists []. rewrite app_nil_r. split; [done|].
    by intros d ?%elem_of_nil.
  - destruct (processRoot E fuel r tm log) as [[tm1 log1]|] eqn:Hroot;
      [|done].
    intros (new2 & -> & Hd2)%IH.
    assert (∃ new, log1 = log ++ new ∧ ∀ d, d ∈ new → severity d = Debug)
      as (new1 & -> & Hd1).
    { unfold processRoot in Hroot.
      destruct (IsUnknown (GetTypeFromSchemaTypeName E r)).
      - injection Hroot as <- <-. exists []. rewrite app_nil_r.
        split; [done|]. by intros d ?%elem_of_nil.
      - destruct (subscript tm r) as [a tm0]. by eapply propagate_log. }
    exists (new1 ++ new2). rewrite app_assoc. split; [done|].
    intros d [?|?]%elem_of_app; eauto.
Qed.

Lemma apiStep_log st t :
  ∃ new, issued st (apiStep E st t) new
         ∧ ∀ d, d ∈ new → severity d ≠ CodingError.
Proof.
  destruct (candidateName APISchemaFamily E t) as [s|] eqn:Hc.
  - apply candidateName_discovered in Hc as [metadata Hd].
    rewrite (apiStep_discovered E st t metadata s Hd).
    apply apiRecord_no_coding_error.
  - destruct (discoverStep_skipped E APISchemaFamily st t Hc)
      as (d & Hd & Hsev & _).
    simpl in Hd. rewrite Hd. exists [d]. split; [done|].
    intros d' ->%list_elem_of_singleton. destruct Hsev as [-> | ->]; done.
Qed.

Lemma apiLoop_log types st :
  ∃ new, issued st (foldl (apiStep E) st types) new
         ∧ ∀ d, d ∈ new → severity d ≠ CodingError.
Proof.
  revert st. induction types as [|t types IH]; intros st; simpl.
  - exists []. unfold issued. rewrite app_nil_r. split; [done|].
    by intros d ?%elem_of_nil.
  - destruct (apiStep_log st t) as (new1 & H1 & Hd1).
    destruct (IH (apiStep E st t)) as (new2 & H2 & Hd2).
    exists (new1 ++ new2). split; [by eapply issued_trans|].
    intros d [?|?]%elem_of_app; eauto.
Qed.

(** The coding errors of the prim loop are conflicts between two
    candidates that wrote the same name. *)
Lemma primLoop_coding_errors types st :
  (∀ t, t ∈ types → t ∈ candidates PrimFamily E) →
  (∀ k v, _typeMap st !! k = Some v →
          v ∈ candidates PrimFamily E ∧ writtenName PrimFamily E v = Some k) →
  (∀ k v, _typeMap (foldl (primStep E) st types) !! k = Some v →
          v ∈ candidates PrimFamily E ∧ writtenName PrimFamily E v = Some k)
  ∧ ∃ new, issued st (foldl (primStep E) st types) new
           ∧ ∀ d, d ∈ new → severity d = CodingError →
                  ∃ s t previous,
                    d = AdapterConflict s t previous
                    ∧ t ∈ candidates PrimFamily E
                    ∧ previous ∈ candidates PrimFamily E
                    ∧ writtenName PrimFamily E t = Some s
                    ∧ writtenName PrimFamily E previous = Some s.
Proof.
  revert st. induction types as [|t types IH]; intros st Hin Hmap; simpl.
  - split; [done|]. exists []. unfold issued. rewrite app_nil_r.
    split; [done|]. by intros d ?%elem_of_nil.
  - assert (t ∈ candidates PrimFamily E) as Ht
      by apply Hin, list_elem_of_here.
    assert (∀ k v, _typeMap (primStep E st t) !! k = Some v →
              v ∈ candidates PrimFamily E
              ∧ writtenName PrimFamily E v = Some k) as Hmap1.
    { intros k v. pose proof (discoverStep_familyMap E PrimFamily st t) as Hm.
      simpl in Hm. rewrite Hm.
      destruct (writtenName PrimFamily E t) as [s|] eqn:Hw; [|by apply Hmap].
      destruct (decide (s = k)) as [->|].
      - rewrite lookup_insert_eq. by intros [= <-].
      - rewrite lookup_insert_ne by done. apply Hmap. }
    destruct (IH (primStep E st t)) as (Hfinal & new2 & H2 & Hd2);
      [by intros ? ?; apply Hin, list_elem_of_further|done|].
    split; [done|].
    assert (∃ new, issued st (primStep E st t) new
              ∧ ∀ d, d ∈ new → severity d = CodingError →
                     ∃ s t previous,
                       d = AdapterConflict s t previous
                       ∧ t ∈ candidates PrimFamily E
                       ∧ previous ∈ candidates PrimFamily E
                       ∧ writtenName PrimFamily E t = Some s
                       ∧ writtenName PrimFamily E previous = Some s)
      as (new1 & H1 & Hd1).
    { destruct (candidateName PrimFamily E t) as [s|] eqn:Hc.
      - assert (writtenName PrimFamily E t = Some s) as Hw
          by (unfold writtenName; by rewrite Hc).
        apply candidateName_discovered in Hc as [metadata Hd].
        rewrite (primStep_discovered E st t metadata s Hd).
        destruct (primRecord_coding_errors t metadata s st)
          as (new & Hnew & Hconf).
        exists new. split; [done|]. intros d Hdin Hsev.
        destruct (Hconf d Hdin Hsev) as (previous & -> & Hprev).
        destruct (Hmap s previous Hprev). exists s, t, previous. done.
      - destruct (discoverStep_skipped E PrimFamily st t Hc)
          as (d & Hd & Hsev & _).
        simpl in Hd. rewrite Hd. exists [d]. split; [done|].
        intros d' ->%list_elem_of_singleton Hcoding.
        destruct Hsev as [Hs|Hs]; rewrite Hs in Hcoding; done. }
    exists (new1 ++ new2). split; [by eapply issued_trans|].
    intros d [?|?]%elem_of_app; eauto.
Qed.

(** X14.  Every coding error the constructor issues is the conflict between
    two prim adapter candidates that wrote the same name; the API schema
    loop and the two propagation passes issue none. *)
Theorem coding_errors_are_prim_conflicts
    (fuel : nat) (st : State) (d : Diagnostic) :
  UsdImagingAdapterRegistry E fuel = Some st →
  d ∈ diagnostics st →
  severity d = CodingError →
  ∃ s t previous,
    d = AdapterConflict s t previous
    ∧ t ∈ candidates PrimFamily E
    ∧ previous ∈ candidates PrimFamily E
    ∧ writtenName PrimFamily E t = Some s
    ∧ writtenName PrimFamily E previous = Some s.
Proof.
  intros (tm & log & tm' & log' & Hprim & Hapi & ->)%constructor_stages.
  simpl. intros Hd Hsev.
  apply processDerivedTypes_log in Hapi as (new4 & -> & Hd4).
  apply elem_of_app in Hd as [Hd|Hd];
    [|apply Hd4 in Hd; rewrite Hd in Hsev; done].
  destruct (apiLoop_log (GetAllDerivedTypes E (_apiSchemaAdapterBaseType E))
              (beforeAPIDiscovery E tm log)) as (new3 & H3 & Hd3).
  fold (afterAPIDiscovery E tm log) in H3. unfold issued in H3.
  rewrite H3 in Hd.
  apply elem_of_app in Hd as [Hd|Hd]; [|by apply Hd3 in Hd].
  assert (diagnostics (beforeAPIDiscovery E tm log) = log) as Hlog by done.
  rewrite Hlog in Hd.
  apply processDerivedTypes_log in Hprim as (new2 & -> & Hd2).
  apply elem_of_app in Hd as [Hd|Hd];
    [|apply Hd2 in Hd; rewrite Hd in Hsev; done].
  destruct (familyLoop_log (includeSchemaFamilies (afterPrimDiscovery E))
              (afterPrimDiscovery E)) as (new1 & H1 & Hd1).
  fold (afterFamilies E) in H1. unfold issued in H1. rewrite H1 in Hd.
  apply elem_of_app in Hd as [Hd|Hd];
    [|apply Hd1 in Hd; rewrite Hd in Hsev; done].
  destruct (primLoop_coding_errors (candidates PrimFamily E) initial)
    as (_ & new0 & H0 & Hd0); [done|done|].
  unfold issued in H0. simpl in H0.
  fold (afterPrimDiscovery E) in H0. rewrite H0 in Hd.
  by apply Hd0.
Qed.

End CodingErrors.

(** ** Discovery order *)

Section Order.
Variable E : Env.

Lemma last_agree {A : Type} (l l' : list A) :
  l ≡ₚ l' → (∀ x y, x ∈ l → y ∈ l → x = y) → last l = last l'.
Proof.
  intros Hperm Hone.
  destruct (last l) as [a|] eqn:Ha, (last l') as [b|] eqn:Hb; [| | |done].
  - f_equal. apply Hone; [by eapply last_Some_elem_of|].
    rewrite Hperm. by eapply last_Some_elem_of.
  - apply last_None in Hb as ->. apply Permutation_nil_r in Hperm as ->.
    done.
  - apply last_None in Ha as ->. symmetry in Hperm.
    apply Permutation_nil_r in Hperm as ->. done.
Qed.

(** X15.  When no two candidates write the same name, the map built by the
    discovery loop does not depend on the order in which the candidates
    are visited. *)
Theorem discovery_order_is_irrelevant_without_conflicts
    (f : AdapterFamily) (st : State) (types types' : list TfType) :
  types ≡ₚ types' →
  (∀ s t1 t2, t1 ∈ types → t2 ∈ types →
              writtenName f E t1 = Some s → writtenName f E t2 = Some s →
              t1 = t2) →
  familyMap f (foldl (discoverStep f E) st types)
  = familyMap f (foldl (discoverStep f E) st types').
Proof.
  intros Hperm Hone. apply map_eq. intros s.
  rewrite !discoverLoop_lookup.
  rewrite (last_agree (filter (λ t, writtenName f E t = Some s) types)
             (filter (λ t, writtenName f E t = Some s) types')); [done| |].
  - by rewrite Hperm.
  - intros x y [Hx ?]%list_elem_of_filter [Hy ?]%list_elem_of_filter.
    by eapply Hone.
Qed.

End Order.

(** ** Scenarios *)

Module Scenarios.
Import Examples.

Ltac compute_eq := vm_compute; reflexivity.

Ltac discovered_by_compute :=
  split; [eexists; split; compute_eq | split; compute_eq].

(** Two prim adapters declare [Sphere]: the second replaces the first
    and the conflict is reported. *)
Lemma overwrite_conflict_by_family_witness :
  let st := primStep spheres initial (TfNamed "SphereAdapterA") in
  _typeMap st !! "Sphere" = Some (TfNamed "SphereAdapterA")
  ∧ _typeMap (primStep spheres st (TfNamed "SphereAdapterB")) !! "Sphere"
    = Some (TfNamed "SphereAdapterB")
  ∧ AdapterConflict "Sphere" (TfNamed "SphereAdapterB")
      (TfNamed "SphereAdapterA")
    ∈ diagnostics (primStep spheres st (TfNamed "SphereAdapterB")).
Proof.
  intros st.
  assert (declares PrimFamily spheres (TfNamed "SphereAdapterB")
            (meta [("primTypeName", JsString "Sphere")]) "Sphere") as Hdecl.
  { split; [discovered_by_compute|done]. }
  assert (familyMap PrimFamily st !! "Sphere"
          = Some (TfNamed "SphereAdapterA")) as Hprev by compute_eq.
  destruct (overwrite_conflict_by_family spheres PrimFamily st
              (TfNamed "SphereAdapterB") (TfNamed "SphereAdapterA")
              _ "Sphere" [] Hdecl Hprev)
    as (Hmap & (new & Hnew & Hin & _) & _).
  split; [exact Hprev|]. split; [exact Hmap|].
  simpl in Hnew. unfold issued in Hnew. rewrite Hnew.
  apply elem_of_app. by right.
Defined.

(** Two API schema adapters declare [CollectionAPI]: the second
    replaces the first and no conflict is reported. *)
Lemma api_overwrite_is_silent :
  let st := apiStep spheres initial (TfNamed "CollectionAdapterA") in
  declares APISchemaFamily spheres (TfNamed "CollectionAdapterB")
    (meta [("apiSchemaName", JsString "CollectionAPI")]) "CollectionAPI"
  ∧ familyMap APISchemaFamily st !! "CollectionAPI"
    = Some (TfNamed "CollectionAdapterA")
  ∧ ¬ reportsConflict APISchemaFamily spheres st
        (TfNamed "CollectionAdapterB") (TfNamed "CollectionAdapterA")
        "CollectionAPI".
Proof.
  intros st. split; [split; [discovered_by_compute|done]|].
  split; [compute_eq|].
  intros (_ & new & Hnew & Hin). unfold issued in Hnew.
  assert (diagnostics (discoverStep APISchemaFamily spheres st
                         (TfNamed "CollectionAdapterB"))
          = diagnostics st
              ++ [DiscoveredAPISchema (TfNamed "CollectionAdapterB")])
    as Hlog by compute_eq.
  rewrite Hlog in Hnew. apply app_inv_head in Hnew as <-.
  by apply list_elem_of_singleton in Hin.
Qed.

(** The adapter of [Cylinder_1] records its family, and Pass 2 maps
    [Cylinder_2] to it. *)
Lemma family_propagation_is_prim_only_witness :
  let st := primStep cylinders initial (TfNamed "CylinderAdapter") in
  includeSchemaFamilies st = [("Cylinder_1", true)]
  ∧ _typeMap (familyStep cylinders st ("Cylinder_1", true)) !! "Cylinder_2"
    = Some (TfNamed "CylinderAdapter").
Proof.
  intros st.
  assert (declares PrimFamily cylinders (TfNamed "CylinderAdapter")
            (meta [("primTypeName", JsString "Cylinder_1");
                   ("includeDerivedPrimTypes", JsBool true);
                   ("includeSchemaFamily", JsBool true)]) "Cylinder_1")
    as Hdecl.
  { split; [discovered_by_compute|done]. }
  destruct (family_propagation_is_prim_only cylinders initial
              (TfNamed "CylinderAdapter") _ "Cylinder_1" true Hdecl)
    as (Hrec & _ & Hvariant & _); [compute_eq..|].
  split; [exact Hrec|].
  apply (Hvariant {| identifier := "Cylinder_2";
                     type := TfNamed "UsdGeomCylinder_2" |}).
  - apply list_elem_of_further, list_elem_of_here.
  - compute_eq.
Defined.

(** An API schema adapter declares [includeSchemaFamily]: no pair is
    recorded and the other schema of its family is no key of the finished
    API schema map. *)
Lemma api_family_is_not_propagated :
  ∃ st,
    UsdImagingAdapterRegistry lightFamily 10 = Some st
    ∧ declares APISchemaFamily lightFamily (TfNamed "LightAPIAdapter")
        (meta [("apiSchemaName", JsString "LightAPI_1");
               ("includeDerivedPrimTypes", JsBool true);
               ("includeSchemaFamily", JsBool true)]) "LightAPI_1"
    ∧ _apiSchemaTypeMap st !! "LightAPI_1" = Some (TfNamed "LightAPIAdapter")
    ∧ includeSchemaFamilies st = []
    ∧ ¬ familyMappedAPI lightFamily st "LightAPI_1".
Proof.
  eexists. split; [compute_eq|].
  split; [split; [discovered_by_compute|done]|].
  split; [compute_eq|]. split; [compute_eq|].
  intros Hall.
  destruct (Hall {| identifier := "LightAPI_2";
                    type := TfNamed "UsdLuxLightAPI_2" |}) as [v Hv].
  - apply list_elem_of_further, list_elem_of_here.
  - vm_compute in Hv. discriminate.
Qed.

(** Below [Gprim], [Boundable] keeps its own adapter, [Curves] and
    [BasisCurves] receive the adapter of [Gprim], and [Cube], below
    [Boundable], receives nothing. *)
Lemma derived_propagation_shadowing_witness :
  ∃ tm' log',
    _ProcessDerivedTypes hierarchy 10
      (includeDerivedPrimTypes (afterFamilies hierarchy))
      (_typeMap (afterFamilies hierarchy))
      (diagnostics (afterFamilies hierarchy))
    = Some (tm', log')
    ∧ includeDerivedPrimTypes (afterFamilies hierarchy) = ["Gprim"]
    ∧ tm' !! "Gprim" = Some (TfNamed "GprimAdapter")
    ∧ tm' !! "Boundable" = Some (TfNamed "BoundableAdapter")
    ∧ tm' !! "Curves" = Some (TfNamed "GprimAdapter")
    ∧ tm' !! "BasisCurves" = Some (TfNamed "GprimAdapter")
    ∧ tm' !! "Cube" = None.
Proof.
  assert (includeDerivedPrimTypes (afterFamilies hierarchy) = [] ++ ["Gprim"])
    as Hroots by compute_eq.
  rewrite Hroots.
  destruct (_ProcessDerivedTypes hierarchy 10 ([] ++ ["Gprim"])
              (_typeMap (afterFamilies hierarchy))
              (diagnostics (afterFamilies hierarchy)))
    as [[tm' log']|] eqn:Hrun; [|vm_compute in Hrun; discriminate].
  destruct (derived_propagation_shadowing hierarchy 10 [] "Gprim" []
              _ tm' _ log' Hrun eq_refl)
    as (tm1 & tm2 & log1 & log2 & Hbefore & _ & Hafter & _ & _ & _
        & Hroot & Hdirect & _).
  simpl in Hbefore, Hafter.
  injection Hbefore as <- <-. injection Hafter as <- <-.
  pose proof (Hdirect (TfNamed "UsdGeomBoundable")
                (list_elem_of_here _ _)) as Hboundable.
  pose proof (Hdirect (TfNamed "UsdGeomCurves")
                (list_elem_of_further _ _ _ (list_elem_of_here _ _)))
    as Hcurves.
  assert ((λ r, (r.1 !! "BasisCurves", r.1 !! "Cube"))
            <$> _ProcessDerivedTypes hierarchy 10 ([] ++ ["Gprim"])
                  (_typeMap (afterFamilies hierarchy))
                  (diagnostics (afterFamilies hierarchy))
          = Some (Some (TfNamed "GprimAdapter"), None)) as Hbelow
    by compute_eq.
  rewrite Hrun in Hbelow. simpl in Hbelow. injection Hbelow as Hbasis Hcube.
  exists tm2, log2. split; [reflexivity|]. split; [reflexivity|].
  split; [exact (eq_trans Hroot ltac:(compute_eq))|].
  split; [exact (eq_trans (Hboundable ltac:(done)) ltac:(compute_eq))|].
  split; [exact (eq_trans (Hcurves ltac:(done)) ltac:(compute_eq))|].
  split; [exact Hbasis|exact Hcube].
Defined.

(** [Capsule_1] has an adapter of its own and belongs to the family of
    [Capsule]: family propagation leaves it alone. *)
Lemma family_propagation_never_overwrites_witness :
  includeSchemaFamilies (afterPrimDiscovery capsules) = [("Capsule", false)]
  ∧ _typeMap (afterFamilies capsules) !! "Capsule_1"
    = Some (TfNamed "Capsule1Adapter").
Proof.
  split; [compute_eq|].
  apply (family_propagation_never_overwrites capsules []
           (afterPrimDiscovery capsules) "Capsule_1"
           (TfNamed "Capsule1Adapter")).
  compute_eq.
Defined.

(** The [includeDerivedPrimTypes] entry of [MeshAdapter] holds a
    string: [Mesh] is mapped, nothing is recorded. *)
Lemma malformed_includeDerived_keeps_write_witness :
  let st := primStep corrupted initial (TfNamed "MeshAdapter") in
  _typeMap st !! "Mesh" = Some (TfNamed "MeshAdapter")
  ∧ includeDerivedPrimTypes st = []
  ∧ includeSchemaFamilies st = [].
Proof.
  intros st.
  assert (declares PrimFamily corrupted (TfNamed "MeshAdapter")
            (meta [("primTypeName", JsString "Mesh");
                   ("includeDerivedPrimTypes", JsString "yes");
                   ("includeSchemaFamily", JsBool true)]) "Mesh") as Hdecl.
  { split; [discovered_by_compute|done]. }
  destruct (malformed_includeDerived_keeps_write corrupted PrimFamily
              initial (TfNamed "MeshAdapter") _ "Mesh" (JsString "yes") []
              Hdecl)
    as (Hmap & _ & Hderived & Hfamilies & _); [compute_eq..|].
  done.
Defined.

(** Two keyless API schema adapters, the second with a broken factory. *)
Lemma keyless_adapters_are_isolated_witness :
  ∃ st,
    UsdImagingAdapterRegistry nameless 10 = Some st
    ∧ TfNamed "KeylessAdapterA" ∈ _keylessApiSchemaAdapterTypes st
    ∧ (∀ k, _apiSchemaTypeMap st !! k ≠ Some (TfNamed "KeylessAdapterA"))
    ∧ GetAPISchemaAdapterKeys st = ["CollectionAPI"]
    ∧ (ConstructKeylessAPISchemaAdapters nameless st).1
      = [ManufacturedAPISchemaAdapter "KeylessAdapterA"].
Proof.
  destruct (UsdImagingAdapterRegistry nameless 10) as [st|] eqn:Hctor;
    [|vm_compute in Hctor; discriminate].
  assert (discovered APISchemaFamily nameless (TfNamed "KeylessAdapterA")
            (meta [("apiSchemaName", JsString "")]) "") as Hdisc
    by discovered_by_compute.
  destruct (keyless_adapters_are_isolated nameless 10 st
              (TfNamed "KeylessAdapterA") _ Hdisc)
    as (Hin & _ & Hnot & _); [by apply list_elem_of_here|done|].
  exists st. split; [done|]. split; [done|]. split; [done|].
  vm_compute in Hctor. injection Hctor as <-. split; compute_eq.
Defined.

(** The root [TorusTwo] resolves to a type but is no key of the map. *)
Lemma unmapped_root_defaults_to_unknown_witness :
  ∃ tm' log',
    processRoot tori 10 "TorusTwo" (_typeMap (afterFamilies tori))
      (diagnostics (afterFamilies tori)) = Some (tm', log')
    ∧ _typeMap (afterFamilies tori) !! "TorusTwo" = None
    ∧ tm' !! "TorusTwo" = Some TfUnknown
    ∧ tm' !! "CustomTorus" = Some TfUnknown.
Proof.
  destruct (processRoot tori 10 "TorusTwo" (_typeMap (afterFamilies tori))
              (diagnostics (afterFamilies tori)))
    as [[tm' log']|] eqn:Hrun; [|vm_compute in Hrun; discriminate].
  assert (_typeMap (afterFamilies tori) !! "TorusTwo" = None) as Habsent
    by compute_eq.
  destruct (unmapped_root_defaults_to_unknown tori 10 "TorusTwo" _ tm' _ log'
              eq_refl Habsent Hrun)
    as (Hroot & _ & Hsub & _).
  exists tm', log'. split; [done|]. split; [done|]. split; [done|].
  apply (Hsub (TfNamed "CustomTorus")).
  - apply list_elem_of_here.
  - done.
  - compute_eq.
Defined.

(** A prim adapter declares the empty name: it is a key. *)
Lemma empty_prim_name_is_a_key_witness :
  ∃ st,
    UsdImagingAdapterRegistry nameless 10 = Some st
    ∧ "" ∈ GetAdapterKeys st
    ∧ HasAdapter nameless st "" = true.
Proof.
  destruct (UsdImagingAdapterRegistry nameless 10) as [st|] eqn:Hctor;
    [|vm_compute in Hctor; discriminate].
  assert (discovered PrimFamily nameless (TfNamed "DrawModeAdapter")
            (meta [("primTypeName", JsString "")]) "") as Hdisc
    by discovered_by_compute.
  destruct (empty_prim_name_is_a_key nameless 10 initial
              (TfNamed "DrawModeAdapter") _ Hdisc)
    as (_ & _ & _ & Hkey & _).
  exists st. split; [done|]. apply Hkey; [|done]. apply list_elem_of_here.
Defined.

End Scenarios.


(** ** Further scenarios *)

Module Cases.
Import Examples.

Ltac by_compute := vm_compute; reflexivity.

Ltac discovered_here :=
  split; [eexists; split; by_compute | split; by_compute].

Lemma keys_agree_with_lookups_witness :
  ∃ st,
    UsdImagingAdapterRegistry cylinders 10 = Some st
    ∧ NoDup (GetAdapterKeys st)
    ∧ (HasAdapter cylinders st "CustomCylinder" = true
       ↔ "CustomCylinder" = instanceAdapterKey cylinders
         ∨ "CustomCylinder" ∈ GetAdapterKeys st).
Proof.
  destruct (UsdImagingAdapterRegistry cylinders 10) as [st|] eqn:Hctor;
    [|vm_compute in Hctor; discriminate].
  destruct (keys_agree_with_lookups cylinders 10 st Hctor)
    as (Hnodup & _ & _ & Hhas & _).
  exists st. split; [done|]. split; [done|]. apply Hhas.
Defined.

Lemma skipped_candidate_only_logs_witness :
  ∃ d, issued initial
         (primStep internalOnly initial (TfNamed "VolumeAdapter")) [d]
       ∧ severity d = Debug
       ∧ _typeMap (primStep internalOnly initial (TfNamed "VolumeAdapter"))
         = ∅.
Proof.
  assert (candidateName PrimFamily internalOnly (TfNamed "VolumeAdapter")
          = None) as Hc by by_compute.
  destruct (skipped_candidate_only_logs internalOnly PrimFamily initial
              (TfNamed "VolumeAdapter") Hc)
    as (d & Hd & _ & Hdebug & Hmap & _).
  exists d. split; [done|]. split; [|done].
  apply Hdebug. right. eexists. split; by_compute.
Defined.

Lemma entries_hold_candidates_witness :
  ∃ st,
    UsdImagingAdapterRegistry tori 10 = Some st
    ∧ ∀ k v, _typeMap st !! k = Some v →
        v = TfUnknown
        ∨ v ∈ candidates PrimFamily tori
          ∧ is_Some (writtenName PrimFamily tori v).
Proof.
  destruct (UsdImagingAdapterRegistry tori 10) as [st|] eqn:Hctor;
    [|vm_compute in Hctor; discriminate].
  exists st. split; [done|].
  apply (entries_hold_candidates tori 10 st Hctor).
Defined.

Lemma last_writer_owns_name_witness :
  ∃ st,
    UsdImagingAdapterRegistry spheres 10 = Some st
    ∧ _typeMap st !! "Sphere" = Some (TfNamed "SphereAdapterB").
Proof.
  destruct (UsdImagingAdapterRegistry spheres 10) as [st|] eqn:Hctor;
    [|vm_compute in Hctor; discriminate].
  exists st. split; [done|].
  apply (last_writer_owns_name spheres PrimFamily 10 st "Sphere"
           (TfNamed "SphereAdapterB") Hctor).
  by_compute.
Defined.

Lemma keyless_list_is_filtered_witness :
  ∃ st,
    UsdImagingAdapterRegistry nameless 10 = Some st
    ∧ _keylessApiSchemaAdapterTypes st
      = [TfNamed "KeylessAdapterA"; TfNamed "KeylessAdapterB"].
Proof.
  destruct (UsdImagingAdapterRegistry nameless 10) as [st|] eqn:Hctor;
    [|vm_compute in Hctor; discriminate].
  exists st. split; [done|].
  rewrite (keyless_list_is_filtered nameless 10 st Hctor). by_compute.
Defined.

Lemma disabled_externals_admit_internal_only_witness :
  ∃ st,
    UsdImagingAdapterRegistry internalOnly 10 = Some st
    ∧ _typeMap st !! "Points" = Some (TfNamed "PointsAdapter")
    ∧ _typeMap st !! "Volume" = None
    ∧ ∀ k v, _apiSchemaTypeMap st !! k = Some v →
             markedInternal internalOnly v.
Proof.
  destruct (UsdImagingAdapterRegistry internalOnly 10) as [st|] eqn:Hctor;
    [|vm_compute in Hctor; discriminate].
  destruct (disabled_externals_admit_internal_only internalOnly 10 st
              eq_refl Hctor) as (_ & Hapi & _).
  exists st. split; [done|].
  vm_compute in Hctor. injection Hctor as <-.
  split; [by_compute|]. split; [by_compute|]. exact Hapi.
Defined.

Lemma malformed_includeFamily_keeps_derived_witness :
  _typeMap (primStep brokenFamily initial (TfNamed "ConeAdapter")) !! "Cone"
  = Some (TfNamed "ConeAdapter")
  ∧ includeDerivedPrimTypes
      (primStep brokenFamily initial (TfNamed "ConeAdapter")) = ["Cone"]
  ∧ includeSchemaFamilies
      (primStep brokenFamily initial (TfNamed "ConeAdapter")) = [].
Proof.
  assert (declares PrimFamily brokenFamily (TfNamed "ConeAdapter")
            (meta [("primTypeName", JsString "Cone");
                   ("includeDerivedPrimTypes", JsBool true);
                   ("includeSchemaFamily", JsString "true")]) "Cone")
    as Hdecl.
  { split; [discovered_here|done]. }
  destruct (malformed_includeFamily_keeps_derived brokenFamily initial
              (TfNamed "ConeAdapter") _ "Cone" true (JsString "true") Hdecl)
    as (Hmap & Hroots & Hfam & _); [by_compute..|].
  done.
Defined.

Lemma family_members_are_mapped_witness :
  ∃ st,
    UsdImagingAdapterRegistry cylinders 10 = Some st
    ∧ HasAdapter cylinders st "Cylinder_2" = true.
Proof.
  destruct (UsdImagingAdapterRegistry cylinders 10) as [st|] eqn:Hctor;
    [|vm_compute in Hctor; discriminate].
  assert (declares PrimFamily cylinders (TfNamed "CylinderAdapter")
            (meta [("primTypeName", JsString "Cylinder_1");
                   ("includeDerivedPrimTypes", JsBool true);
                   ("includeSchemaFamily", JsBool true)]) "Cylinder_1")
    as Hdecl.
  { split; [discovered_here|done]. }
  destruct (family_members_are_mapped cylinders 10 st
              (TfNamed "CylinderAdapter") _ "Cylinder_1" true
              {| identifier := "Cylinder_2";
                 type := TfNamed "UsdGeomCylinder_2" |} Hctor
              (list_elem_of_here _ _) Hdecl)
    as [Hhas _]; [by_compute..| |].
  - apply list_elem_of_further, list_elem_of_here.
  - exists st. done.
Defined.

Lemma derived_subtypes_are_mapped_witness :
  ∃ st,
    UsdImagingAdapterRegistry hierarchy 10 = Some st
    ∧ is_Some (_typeMap st !! "Curves").
Proof.
  destruct (UsdImagingAdapterRegistry hierarchy 10) as [st|] eqn:Hctor;
    [|vm_compute in Hctor; discriminate].
  assert (declares PrimFamily hierarchy (TfNamed "GprimAdapter")
            (meta [("primTypeName", JsString "Gprim");
                   ("includeDerivedPrimTypes", JsBool true)]) "Gprim")
    as Hdecl.
  { split; [discovered_here|done]. }
  exists st. split; [done|].
  apply (derived_subtypes_are_mapped hierarchy PrimFamily 10 st
           (TfNamed "GprimAdapter") _ "Gprim" (TfNamed "UsdGeomCurves")
           Hctor (list_elem_of_here _ _) Hdecl).
  - by_compute.
  - by_compute.
  - apply list_elem_of_further, list_elem_of_here.
  - done.
Defined.

Lemma derived_mappings_are_logged_witness :
  ∃ tm' log' added,
    propagate hierarchy 10 "Gprim" (TfNamed "GprimAdapter")
      (reverse (GetDirectlyDerivedTypes hierarchy (TfNamed "UsdGeomGprim")))
      (_typeMap (afterFamilies hierarchy))
      (diagnostics (afterFamilies hierarchy))
    = Some (tm', log')
    ∧ log' = diagnostics (afterFamilies hierarchy)
               ++ (DerivedMapping "Gprim" <$> added)
    ∧ size tm' = (size (_typeMap (afterFamilies hierarchy)) + length added)%nat.
Proof.
  destruct (propagate hierarchy 10 "Gprim" (TfNamed "GprimAdapter")
      (reverse (GetDirectlyDerivedTypes hierarchy (TfNamed "UsdGeomGprim")))
      (_typeMap (afterFamilies hierarchy))
      (diagnostics (afterFamilies hierarchy)))
    as [[tm' log']|] eqn:Hrun; [|vm_compute in Hrun; discriminate].
  destruct (derived_mappings_are_logged hierarchy 10 "Gprim"
              (TfNamed "GprimAdapter") _ _ tm' _ log' Hrun)
    as (added & Hlog & _ & _ & Hsize).
  exists tm', log', added.
  split; [reflexivity|]. split; [exact Hlog|exact Hsize].
Defined.

Lemma added_entries_cover_subtypes_witness :
  ∃ tm' log' d,
    propagate hierarchy 10 "Gprim" (TfNamed "GprimAdapter")
      (reverse (GetDirectlyDerivedTypes hierarchy (TfNamed "UsdGeomGprim")))
      (_typeMap (afterFamilies hierarchy))
      (diagnostics (afterFamilies hierarchy))
    = Some (tm', log')
    ∧ GetSchemaTypeName hierarchy d = "Curves"
    ∧ ∀ c, c ∈ GetDirectlyDerivedTypes hierarchy d →
           GetSchemaTypeName hierarchy c ≠ "" →
           is_Some (tm' !! GetSchemaTypeName hierarchy c).
Proof.
  destruct (propagate hierarchy 10 "Gprim" (TfNamed "GprimAdapter")
      (reverse (GetDirectlyDerivedTypes hierarchy (TfNamed "UsdGeomGprim")))
      (_typeMap (afterFamilies hierarchy))
      (diagnostics (afterFamilies hierarchy)))
    as [[tm' log']|] eqn:Hrun; [|vm_compute in Hrun; discriminate].
  destruct (added_entries_cover_subtypes hierarchy 10 "Gprim"
              (TfNamed "GprimAdapter") _ _ tm' _ log' "Curves" Hrun)
    as (d & Hname & _ & Hcover).
  - by_compute.
  - assert ((λ r, r.1 !! "Curves")
              <$> propagate hierarchy 10 "Gprim" (TfNamed "GprimAdapter")
                    (reverse (GetDirectlyDerivedTypes hierarchy
                                (TfNamed "UsdGeomGprim")))
                    (_typeMap (afterFamilies hierarchy))
                    (diagnostics (afterFamilies hierarchy))
            = Some (Some (TfNamed "GprimAdapter"))) as Hcurves by by_compute.
    rewrite Hrun in Hcurves. injection Hcurves as Hcurves.
    simpl in Hcurves. rewrite Hcurves. eauto.
  - exists tm', log', d.
    split; [reflexivity|]. split; [exact Hname|exact Hcover].
Defined.

Lemma coding_errors_are_prim_conflicts_witness :
  ∃ st s t previous,
    UsdImagingAdapterRegistry spheres 10 = Some st
    ∧ AdapterConflict "Sphere" (TfNamed "SphereAdapterB")
        (TfNamed "SphereAdapterA")
      = AdapterConflict s t previous
    ∧ writtenName PrimFamily spheres t = Some s
    ∧ writtenName PrimFamily spheres previous = Some s.
Proof.
  destruct (UsdImagingAdapterRegistry spheres 10) as [st|] eqn:Hctor;
    [|vm_compute in Hctor; discriminate].
  destruct (coding_errors_are_prim_conflicts spheres 10 st
              (AdapterConflict "Sphere" (TfNamed "SphereAdapterB")
                 (TfNamed "SphereAdapterA")) Hctor)
    as (s & t & previous & Heq & _ & _ & Ht & Hp); [|done|].
  - vm_compute in Hctor. injection Hctor as <-. simpl.
    apply list_elem_of_further, list_elem_of_further, list_elem_of_here.
  - exists st, s, t, previous. done.
Defined.

Lemma discovery_order_is_irrelevant_without_conflicts_witness :
  _typeMap (foldl (primStep hierarchy) initial
              [TfNamed "GprimAdapter"; TfNamed "BoundableAdapter"])
  = _typeMap (foldl (primStep hierarchy) initial
                [TfNamed "BoundableAdapter"; TfNamed "GprimAdapter"]).
Proof.
  apply (discovery_order_is_irrelevant_without_conflicts hierarchy PrimFamily
           initial [TfNamed "GprimAdapter"; TfNamed "BoundableAdapter"]
           [TfNamed "BoundableAdapter"; TfNamed "GprimAdapter"]).
  - apply perm_swap.
  - intros s t1 t2 Ht1 Ht2 H1 H2.
    apply elem_of_cons in Ht1 as [->|Ht1];
      [|apply list_elem_of_singleton in Ht1 as ->];
      (apply elem_of_cons in Ht2 as [->|Ht2];
       [|apply list_elem_of_singleton in Ht2 as ->]);
      try done; vm_compute in H1, H2; congruence.
Defined.

End Cases.
